(** * AWS-EVO operator scripts: route provisioner and template generator

    A shallow embedding of [create_routes.py] and
    [scripts/generate-cf-lambdas.py], and the properties their
    specification states about them.

    Python text is a sequence of Unicode code points; the generator
    inspects single characters (regular-expression classes, [str.replace],
    [str.lower]), so its text is a [list N] of code points.  The
    provisioner only concatenates text, so it works on [string]. *)

From stdpp Require Import gmap strings list fin_maps pretty.
From Stdlib Require Import NArith ZArith Lia.

(** ** Text *)

Module Text.

Definition char := N.
Definition text := list char.
Bind Scope N_scope with char.

(** A source literal (all of them are ASCII) as code points. *)
Definition cp (s : string) : text :=
  map Ascii.N_of_ascii (String.list_ascii_of_string s).

Definition in_range (lo hi c : char) : bool := ((lo <=? c) && (c <=? hi))%N.

(** [[A-Z]], [[a-z]], [[a-zA-Z]] and the decimal digits. *)
Definition is_AZ (c : char) : bool := in_range 65 90 c.
Definition is_az (c : char) : bool := in_range 97 122 c.
Definition is_letter (c : char) : bool := is_az c || is_AZ c.
Definition is_digit (c : char) : bool := in_range 48 57 c.
Definition is_ascii (c : char) : bool := (c <? 128)%N.

(** [\s] of a text pattern: Unicode white space. *)
Definition is_space (c : char) : bool :=
  (in_range 9 13 c || in_range 28 32 c || (c =? 133) || (c =? 160)
   || (c =? 5760) || in_range 8192 8202 c || (c =? 8232) || (c =? 8233)
   || (c =? 8239) || (c =? 8287) || (c =? 12288))%N.

(** [.] under [re.DOTALL]. *)
Definition any (_ : char) : bool := true.

(** [s.startswith(p)], and the rest of [s] behind the prefix. *)
Fixpoint strip_prefix (p s : text) : option text :=
  match p with
  | [] => Some s
  | a :: p' =>
      match s with
      | [] => None
      | b :: s' => if (a =? b)%N then strip_prefix p' s' else None
      end
  end.

Definition startswith (s p : text) : bool :=
  match strip_prefix p s with Some _ => true | None => false end.

(** [s[a:b]] for [0 <= a], [0 <= b]. *)
Definition slice (s : text) (a b : nat) : text := take (b - a) (drop a s).

(** [str.replace(old, new)] for a non-empty [old]: occurrences are taken
    from the left and do not overlap; [skip] counts the characters of an
    occurrence that are still to be dropped. *)
Fixpoint replace_from (old new : text) (skip : nat) (s : text) : text :=
  match s with
  | [] => []
  | c :: s' =>
      match skip with
      | S k => replace_from old new k s'
      | O =>
          if startswith s old
          then new ++ replace_from old new (length old - 1) s'
          else c :: replace_from old new 0 s'
      end
  end.

(** [str.replace(old, new)]; an empty [old] matches between any two
    characters and at both ends. *)
Definition replace (s old new : text) : text :=
  match old with
  | [] => new ++ concat (map (fun c => c :: new) s)
  | _ :: _ => replace_from old new 0 s
  end.

Definition ascii_lower (c : char) : char := if is_AZ c then (c + 32)%N else c.

(** [str.lower()]: ASCII text is lowered character by character; text
    with other code points goes through the Unicode case mapping
    [uni_lower], a table that is not part of the program. *)
Definition lower (uni_lower : text -> text) (s : text) : text :=
  if forallb is_ascii s then map ascii_lower s else uni_lower s.

End Text.

Import Text.

(** ** Regular expressions

    The fragment of Python's [re] that the two patterns of the generator
    are written in, run the way the library runs it: a backtracking
    matcher that tries the alternatives of a quantifier in priority order
    (greedy: longest first, lazy: shortest first) and keeps the first one
    under which the rest of the pattern matches. *)

Module Re.

Inductive item : Type :=
| Lit (l : text)                (* literal characters *)
| One (p : char -> bool)        (* [...] : one character of a class *)
| Plus (p : char -> bool)       (* [...]+ : one or more, greedy *)
| LazyStar (p : char -> bool)   (* [...]*? : zero or more, lazy *)
| Mark (i : nat)                (* a boundary of a capture group *)
| NotAtStart                    (* (?<!^) without re.MULTILINE *)
| Ahead (p : char -> bool).     (* (?=[...]) *)

(** Mark [2g-2] is the start of group [g] and mark [2g-1] its end; the
    most recent setting of a mark comes first. *)
Definition marks := list (nat * nat).

(** What a successful run leaves: the marks, the position behind the
    match and the text from there on. *)
Definition outcome : Type := marks * nat * text.

(** Zero or more characters of [p], longest first, before [k]. *)
Fixpoint greedy (p : char -> bool) (k : nat -> text -> option outcome)
    (pos : nat) (s : text) : option outcome :=
  match s with
  | c :: s' =>
      if p c then
        match greedy p k (S pos) s' with
        | Some r => Some r
        | None => k pos s
        end
      else k pos s
  | [] => k pos s
  end.

(** Zero or more characters of [p], shortest first, before [k]. *)
Fixpoint lazy (p : char -> bool) (k : nat -> text -> option outcome)
    (pos : nat) (s : text) : option outcome :=
  match k pos s with
  | Some r => Some r
  | None =>
      match s with
      | c :: s' => if p c then lazy p k (S pos) s' else None
      | [] => None
      end
  end.

(** [run its ok m pos s]: match [its] against [s], the text from position
    [pos] on; [ok] is asked about the end position before a match is
    accepted. *)
Fixpoint run (its : list item) (ok : nat -> bool) (m : marks) (pos : nat)
    (s : text) : option outcome :=
  match its with
  | [] => if ok pos then Some (m, pos, s) else None
  | Lit l :: k =>
      match strip_prefix l s with
      | Some s' => run k ok m (pos + length l) s'
      | None => None
      end
  | One p :: k =>
      match s with
      | c :: s' => if p c then run k ok m (S pos) s' else None
      | [] => None
      end
  | Plus p :: k =>
      match s with
      | c :: s' => if p c then greedy p (run k ok m) (S pos) s' else None
      | [] => None
      end
  | LazyStar p :: k => lazy p (run k ok m) pos s
  | Mark i :: k => run k ok ((i, pos) :: m) pos s
  | NotAtStart :: k => if Nat.eqb pos 0 then None else run k ok m pos s
  | Ahead p :: k =>
      match s with
      | c :: _ => if p c then run k ok m pos s else None
      | [] => None
      end
  end.

(** One match: where it starts, its marks, where it stops, and the text
    from there on. *)
Record found : Type := Found {
  start : nat;
  groups : marks;
  stop : nat;
  rest : text
}.

(** The end positions a match that starts at [pos] may have: after an
    empty match the next one must not be empty at the same position. *)
Definition allowed (must_advance : bool) (pos e : nat) : bool :=
  negb must_advance || negb (Nat.eqb e pos).

(** The first match at or behind [pos]. *)
Fixpoint search (its : list item) (must_advance : bool) (pos : nat)
    (s : text) : option found :=
  match run its (allowed must_advance pos) [] pos s with
  | Some (m, e, s') => Some (Found pos m e s')
  | None =>
      match s with
      | [] => None
      | _ :: s' => search its false (S pos) s'
      end
  end.

(** All matches from the left, none overlapping another; each turn of
    the library's loop takes one unit of [fuel]. *)
Fixpoint finditer_from (its : list item) (fuel : nat) (must_advance : bool)
    (pos : nat) (s : text) : list found :=
  match fuel with
  | O => []
  | S fuel' =>
      match search its must_advance pos s with
      | None => []
      | Some f =>
          f :: finditer_from its fuel' (Nat.eqb (stop f) (start f)) (stop f) (rest f)
      end
  end.

(** Every turn moves the search position forward or, after an empty
    match, forbids the next empty one: twice the length and two turns
    are enough. *)
Definition finditer (its : list item) (s : text) : list found :=
  finditer_from its (2 * length s + 2) false 0 s.

Fixpoint mark (m : marks) (i : nat) : option nat :=
  match m with
  | [] => None
  | (j, p) :: m' => if Nat.eqb i j then Some p else mark m' i
  end.

(** The text of group [g] of a match, empty when the group took no part
    in it. *)
Definition group (s : text) (f : found) (g : nat) : text :=
  match mark (groups f) (2 * g - 2), mark (groups f) (2 * g - 1) with
  | Some a, Some b => slice s a b
  | _, _ => []
  end.

(** [re.findall] for a pattern with two groups: the pairs of group
    texts, in the order of the matches. *)
Definition findall2 (its : list item) (s : text) : list (text * text) :=
  map (fun f => (group s f 1, group s f 2)) (finditer its s).

(** The copying loop of [re.sub] with a replacement free of group
    references: [i] is the position up to which the text has been
    copied and [s] the text from [i] on. *)
Fixpoint splice (repl : text) (ms : list found) (i : nat) (s : text) : text :=
  match ms with
  | [] => s
  | f :: ms' =>
      take (start f - i) s ++ repl ++ splice repl ms' (stop f) (drop (stop f - i) s)
  end.

Definition sub (its : list item) (repl s : text) : text :=
  splice repl (finditer its s) 0 s.

(** Matches that lie in the text from left to right, none reaching into
    the next; the first starts at or behind [pos]. *)
Fixpoint chained (pos : nat) (ms : list found) : Prop :=
  match ms with
  | [] => True
  | f :: ms' => pos <= start f /\ start f <= stop f /\ chained (stop f) ms'
  end.

End Re.

(** ** The template generator, [scripts/generate-cf-lambdas.py] *)

Module GenerateCfLambdas.

Import Re.

(** An extracted function: the dictionary with keys [name] and
    [handler]. *)
Record func : Type := Func { name : text; handler : text }.

(** The start of the output document: parameters and the execution
    role. *)
Definition cf_template_head : text := cp "AWSTemplateFormatVersion: '2010-09-09'
Description: EVO Production - All 194 Lambda Functions

Parameters:
  Environment:
    Type: String
    Default: production
  
  ProjectName:
    Type: String
    Default: evo-uds-v3

  LayerArn:
    Type: String
    Default: arn:aws:lambda:us-east-1:523115032346:layer:evo-uds-v3-production-deps:3

  CodeS3Bucket:
    Type: String
    Default: evo-sam-artifacts-523115032346

  CodeS3Key:
    Type: String
    Default: lambda-code/lambda-code-prod-v2.zip

Resources:
  # IAM Role for all Lambdas
  LambdaExecutionRole:
    Type: AWS::IAM::Role
    Properties:
      RoleName: !Sub '${ProjectName}-${Environment}-lambda-role'
      AssumeRolePolicyDocument:
        Version: '2012-10-17'
        Statement:
          - Effect: Allow
            Principal:
              Service: lambda.amazonaws.com
            Action: sts:AssumeRole
      ManagedPolicyArns:
        - arn:aws:iam::aws:policy/service-role/AWSLambdaBasicExecutionRole
        - arn:aws:iam::aws:policy/service-role/AWSLambdaVPCAccessExecutionRole
        - arn:aws:iam::aws:policy/AmazonBedrockFullAccess
      Policies:
        - PolicyName: LambdaPolicy
          PolicyDocument:
            Version: '2012-10-17'
            Statement:
              - Effect: Allow
                Action:
                  - logs:*
                  - secretsmanager:*
                  - cognito-idp:*
                  - s3:*
                  - ses:*
                  - sts:*
                  - ce:*
                  - cloudwatch:*
                  - cloudtrail:*
                  - guardduty:*
                  - securityhub:*
                  - iam:*
                  - ec2:Describe*
                  - rds:Describe*
                  - lambda:*
                  - wafv2:*
                Resource: '*'

".

(** The closing section of the output document. *)
Definition cf_template_outputs : text := cp "Outputs:
  LambdaExecutionRoleArn:
    Value: !GetAtt LambdaExecutionRole.Arn
  LayerArn:
    Value: !Ref LayerArn
".

(** [func['handler'].replace('dist/', '')], under the comment "Remove
    'dist/' prefix from handler". *)
Definition strip_dist (h : text) : text := replace h (cp "dist/") [].

(** [(?<!^)(?=[A-Z])]: the empty places in front of an upper-case
    letter, the start of the text excepted. *)
Definition hyphen_sites : list item := [NotAtStart; Ahead is_AZ].

(** The run-time failure of the script. *)
Inductive exn : Type :=
| FileNotFoundError (path : string).

Definition sam_template : string := "sam/template.yaml".
Definition production_template : string := "sam/production-lambdas-only.yaml".

(** The two Unicode tables behind [\w] and [str.lower] for code points
    that are not ASCII; they belong to the language, not to the
    program. *)
Class UnicodeTables : Type := {
  uni_alnum : char -> bool;
  uni_lower : text -> text
}.

Section Tables.

Context `{UnicodeTables}.

(** [\w] of a text pattern. *)
Definition is_word (c : char) : bool :=
  if is_ascii c then is_letter c || is_digit c || (c =? 95)%N else uni_alnum c.

(** [[\w/\-\.]]. *)
Definition is_handler_char (c : char) : bool :=
  is_word c || (c =? 47)%N || (c =? 45)%N || (c =? 46)%N.

(** The scan pattern: two blanks, the name [([A-Z][a-zA-Z]+)] in front
    of [Function:], then, each behind white space [\s+], the type line,
    [Properties:], [FunctionName:], [CodeUri:] and [Handler: ] with the
    handler [([\w/\-\.]+)]; what follows [FunctionName:] and [CodeUri:]
    is skipped by a lazy [.*?] that, under [re.DOTALL], crosses lines. *)
Definition pattern : list item :=
  [ Lit (cp "  "); Mark 0; One is_AZ; Plus is_letter; Mark 1;
    Lit (cp "Function:");
    Plus is_space; Lit (cp "Type: AWS::Serverless::Function");
    Plus is_space; Lit (cp "Properties:");
    Plus is_space; Lit (cp "FunctionName:"); LazyStar any;
    Plus is_space; Lit (cp "CodeUri:"); LazyStar any;
    Plus is_space; Lit (cp "Handler: "); Mark 2; Plus is_handler_char; Mark 3 ].

(** [re.findall(pattern, sam_content, re.MULTILINE | re.DOTALL)]; the
    pattern has no anchor for [re.MULTILINE] to act on. *)
Definition matches (sam_content : text) : list (text * text) :=
  findall2 pattern sam_content.

(** The first loop: one dictionary is appended per match. *)
Definition functions (sam_content : text) : list func :=
  fold_left (fun fs m => fs ++ [Func (fst m) (snd m)]) (matches sam_content) [].

(** CamelCase to kebab-case. *)
Definition func_name_kebab (n : text) : text :=
  lower uni_lower (sub hyphen_sites (cp "-") n).

(** The resource block of one function. *)
Definition function_block (f : func) : text :=
  cp "  "
  ++ name f
  ++ cp "Function:
    Type: AWS::Lambda::Function
    Properties:
      FunctionName: !Sub '${ProjectName}-${Environment}-"
  ++ func_name_kebab (name f)
  ++ cp "'
      Runtime: nodejs20.x
      Handler: "
  ++ strip_dist (handler f)
  ++ cp "
      Code:
        S3Bucket: !Ref CodeS3Bucket
        S3Key: !Ref CodeS3Key
      Layers:
        - !Ref LayerArn
      Architectures:
        - arm64
      Timeout: 30
      MemorySize: 256
      Role: !GetAtt LambdaExecutionRole.Arn

".

(** The second loop and the closing section. *)
Definition cf_template (sam_content : text) : text :=
  fold_left (fun t f => t ++ function_block f) (functions sam_content)
    cf_template_head
  ++ cf_template_outputs.

Definition found_line (n : nat) : text :=
  cp "Found " ++ cp (pretty n) ++ cp " Lambda functions".

Definition generated_line (n : nat) : text :=
  [9989%N] ++ cp " Generated sam/production-lambdas-only.yaml with "
  ++ cp (pretty n) ++ cp " Lambda functions".

(** The whole script over a file system: the files after the run and
    the lines printed, or the failure of reading the input. *)
Definition main (files : gmap string text)
    : exn + (gmap string text * list text) :=
  match files !! sam_template with
  | None => inl (FileNotFoundError sam_template)
  | Some sam_content =>
      let n := length (functions sam_content) in
      inr (<[production_template := cf_template sam_content]> files,
           [found_line n; generated_line n])
  end.

End Tables.

End GenerateCfLambdas.

(** ** The route provisioner, [create_routes.py] *)

Module CreateRoutes.

Definition API_ID : string := "w5gyvgfskh".
Definition AUTHORIZER_ID : string := "shn0ze".
Definition REGION : string := "us-east-1".
Definition ACCOUNT_ID : string := "523115032346".

(** The route table, in the order of the dictionary literal, which is
    the order the loop visits it in: function name, path, and whether
    the route needs authorization. *)
Definition ROUTES : list (string * (string * bool)) :=
  [
    ("evo-uds-v3-production-register", ("/api/auth/register", false));
    ("evo-uds-v3-production-refresh-token", ("/api/auth/refresh", false));
    ("evo-uds-v3-production-forgot-password", ("/api/auth/forgot-password", false));
    ("evo-uds-v3-production-reset-password", ("/api/auth/reset-password", false));
    ("evo-uds-v3-production-mfa-verify-login", ("/api/auth/mfa/verify", false));
    ("evo-uds-v3-production-logout", ("/api/auth/logout", true));
    ("evo-uds-v3-production-change-password", ("/api/auth/change-password", true));
    ("evo-uds-v3-production-mfa-enroll", ("/api/auth/mfa/enroll", true));
    ("evo-uds-v3-production-mfa-check", ("/api/auth/mfa/check", true));
    ("evo-uds-v3-production-mfa-list-factors", ("/api/auth/mfa/factors", true));
    ("evo-uds-v3-production-save-aws-credentials", ("/api/aws/credentials", true));
    ("evo-uds-v3-production-list-aws-credentials", ("/api/aws/credentials/list", true));
    ("evo-uds-v3-production-validate-aws-credentials", ("/api/aws/credentials/validate", true));
    ("evo-uds-v3-production-delete-aws-credentials", ("/api/aws/credentials/delete", true));
    ("evo-uds-v3-production-save-azure-credentials", ("/api/azure/credentials", true));
    ("evo-uds-v3-production-list-azure-credentials", ("/api/azure/credentials/list", true));
    ("evo-uds-v3-production-validate-azure-credentials", ("/api/azure/credentials/validate", true));
    ("evo-uds-v3-production-security-scan", ("/api/security/scan", true));
    ("evo-uds-v3-production-list-security-scans", ("/api/security/scans", true));
    ("evo-uds-v3-production-compliance-scan", ("/api/security/compliance", true));
    ("evo-uds-v3-production-fetch-daily-costs", ("/api/costs/daily", true));
    ("evo-uds-v3-production-cost-optimization", ("/api/costs/optimization", true));
    ("evo-uds-v3-production-dashboard-metrics", ("/api/dashboard/metrics", true));
    ("evo-uds-v3-production-executive-dashboard", ("/api/dashboard/executive", true));
    ("evo-uds-v3-production-list-organizations", ("/api/organizations", true));
    ("evo-uds-v3-production-list-users", ("/api/users", true));
    ("evo-uds-v3-production-validate-license", ("/api/licenses/validate", true))
  ].

(** What a provider call or a subscript may raise; all of it is below
    [Exception]. *)
Inductive exn : Type :=
| ClientError (msg : string)
| KeyError (key : string).

(** [str(e)]. *)
Definition str (e : exn) : string :=
  match e with
  | ClientError msg => msg
  | KeyError key => "'" +:+ key +:+ "'"
  end.

(** The calls the script makes on the two clients, with their keyword
    arguments. *)
Inductive call : Type :=
| CreateIntegration (kw : gmap string string)
| CreateRoute (kw : gmap string string)
| AddPermission (kw : gmap string string).

(** The management plane and the clock: each operation answers with a
    response or raises, and moves the world on. *)
Class Provider (World : Type) : Type := {
  apigw_create_integration :
    gmap string string -> World -> (exn + gmap string string) * World;
  apigw_create_route :
    gmap string string -> World -> (exn + gmap string string) * World;
  lambda_add_permission :
    gmap string string -> World -> (exn + gmap string string) * World;
  (** [int(time.time())] *)
  time_seconds : World -> Z;
  (** [time.sleep(0.5)] *)
  time_sleep_half : World -> World
}.

Section Script.

Context {World : Type} `{Provider World}.

(** The state a run threads: the world, the calls made so far (oldest
    first) and the lines printed. *)
Record state : Type := State {
  world : World;
  calls : list call;
  printed : list string
}.

(** A computation that may raise. *)
Definition M (A : Type) : Type := state -> (exn + A) * state.

#[local] Instance M_ret : MRet M := fun A (a : A) st => (inr a, st).

#[local] Instance M_bind : MBind M := fun A B (k : A -> M B) (c : M A) st =>
  match c st with
  | (inr a, st') => k a st'
  | (inl e, st') => (inl e, st')
  end.

Definition raise {A : Type} (e : exn) : M A := fun st => (inl e, st).

(** [try: c  except Exception as e: h e]; a bare [except:] is the same,
    every failure of the model being below [Exception]. *)
Definition try_except {A : Type} (c : M A) (h : exn -> M A) : M A := fun st =>
  match c st with
  | (inr a, st') => (inr a, st')
  | (inl e, st') => h e st'
  end.

Definition print (line : string) : M unit := fun st =>
  (inr tt, State (world st) (calls st) (printed st ++ [line])).

(** A client call: it is recorded, then the provider answers. *)
Definition invoke (c : call)
    (op : World -> (exn + gmap string string) * World)
    : M (gmap string string) := fun st =>
  let '(r, w) := op (world st) in
  (r, State w (calls st ++ [c]) (printed st)).

Definition now : M Z := fun st => (inr (time_seconds (world st)), st).

Definition sleep : M unit := fun st =>
  (inr tt, State (time_sleep_half (world st)) (calls st) (printed st)).

(** [d[key]]. *)
Definition getitem (d : gmap string string) (key : string) : M string :=
  match d !! key with
  | Some v => mret v
  | None => raise (KeyError key)
  end.

Definition integration_params (lambda_name : string) : gmap string string :=
  <["PayloadFormatVersion" := "2.0"]>
  (<["IntegrationUri" :=
       "arn:aws:lambda:" +:+ REGION +:+ ":" +:+ ACCOUNT_ID +:+ ":function:"
       +:+ lambda_name]>
  (<["IntegrationType" := "AWS_PROXY"]>
  (<["ApiId" := API_ID]> ∅))).

(** The dictionary [route_params] at the call of [apigw.create_route]. *)
Definition route_params (path integration_id : string) (needs_auth : bool)
    : gmap string string :=
  let route_params : gmap string string :=
    <["Target" := "integrations/" +:+ integration_id]>
    (<["RouteKey" := "POST " +:+ path]>
    (<["ApiId" := API_ID]> ∅)) in
  if needs_auth
  then <["AuthorizerId" := AUTHORIZER_ID]>
       (<["AuthorizationType" := "JWT"]> route_params)
  else route_params.

Definition permission_params (lambda_name : string) (seconds : Z)
    : gmap string string :=
  <["SourceArn" :=
      "arn:aws:execute-api:" +:+ REGION +:+ ":" +:+ ACCOUNT_ID +:+ ":"
      +:+ API_ID +:+ "/*/*"]>
  (<["Principal" := "apigateway.amazonaws.com"]>
  (<["Action" := "lambda:InvokeFunction"]>
  (<["StatementId" := "apigw-" +:+ pretty seconds]>
  (<["FunctionName" := lambda_name]> ∅)))).

Definition create_route (lambda_name path : string) (needs_auth : bool)
    : M bool :=
  try_except
    (print ("Criando: " +:+ path +:+ " -> " +:+ lambda_name);;
     integration ←
       invoke (CreateIntegration (integration_params lambda_name))
         (apigw_create_integration (integration_params lambda_name));
     integration_id ← getitem integration "IntegrationId";
     let params := route_params path integration_id needs_auth in
     route ← invoke (CreateRoute params) (apigw_create_route params);
     try_except
       (seconds ← now;
        let params := permission_params lambda_name seconds in
        invoke (AddPermission params) (lambda_add_permission params);;
        mret tt)
       (fun _ => mret tt);;
     route_id ← getitem route "RouteId";
     print ("  ✓ Criada: " +:+ route_id);;
     mret true)
    (fun e =>
       print ("  ✗ Erro: " +:+ str e);;
       mret false).

(** The loop over the table with its two counters. *)
Fixpoint process (routes : list (string * (string * bool)))
    (success failed : nat) : M (nat * nat) :=
  match routes with
  | [] => mret (success, failed)
  | (lambda_name, (path, needs_auth)) :: routes' =>
      created ← create_route lambda_name path needs_auth;
      let counts : nat * nat :=
        if created : bool then (S success, failed) else (success, S failed) in
      sleep;;
      process routes' (fst counts) (snd counts)
  end.

Definition newline : string := String.String (Ascii.ascii_of_nat 10) String.EmptyString.

(** The script from its first [print] to its last; the result is the
    pair of counts in the closing line. *)
Definition main_over (routes : list (string * (string * bool)))
    : M (nat * nat) :=
  print ("Criando " +:+ pretty (length routes) +:+ " rotas principais..."
         +:+ newline);;
  counts ← process routes 0 0;
  print (newline +:+ "✓ Concluído: " +:+ pretty (fst counts)
         +:+ " rotas criadas, " +:+ pretty (snd counts) +:+ " falharam");;
  mret counts.

Definition main : M (nat * nat) := main_over ROUTES.

End Script.

End CreateRoutes.

(** ** Vocabulary of the statements about the provisioner *)

Module CreateRoutesSpec.

Import CreateRoutes.

(** The calls a computation adds to the ones already made. *)
Definition calls_made {World : Type} {A : Type}
    (c : @M World A) (st : @state World) : list call :=
  drop (length (calls st)) (calls (snd (c st))).

Section Script.

Context {World : Type} `{Provider World}.

(** The line printed when a route is taken up. *)
Definition criando (lambda_name path : string) : string :=
  "Criando: " +:+ path +:+ " -> " +:+ lambda_name.

(** The first failure of steps 1 and 2: the exception, the world it
    leaves and the calls made up to it. *)
Definition failure_in_step_1_or_2 (lambda_name path : string) (needs_auth : bool)
    (w : World) : option (exn * World * list call) :=
  let ci := CreateIntegration (integration_params lambda_name) in
  match apigw_create_integration (integration_params lambda_name) w with
  | (inl e, w1) => Some (e, w1, [ci])
  | (inr integration, w1) =>
      match integration !! "IntegrationId" with
      | None => Some (KeyError "IntegrationId", w1, [ci])
      | Some integration_id =>
          let params := route_params path integration_id needs_auth in
          match apigw_create_route params w1 with
          | (inl e, w2) => Some (e, w2, [ci; CreateRoute params])
          | (inr _, _) => None
          end
      end
  end.

(** The state in which the loop goes on after a route. *)
Definition after_route (w : World) (st : @state World) (cs : list call)
    (lines : list string) : @state World :=
  State (time_sleep_half w) (calls st ++ cs) (printed st ++ lines).

(** The line that reports the two counts. *)
Definition closing_line (success failed : nat) : string :=
  newline +:+ "✓ Concluído: " +:+ pretty success
  +:+ " rotas criadas, " +:+ pretty failed +:+ " falharam".

End Script.

(** How many integrations a list of calls creates. *)
Fixpoint integrations (cs : list call) : nat :=
  match cs with
  | [] => 0
  | CreateIntegration _ :: cs' => S (integrations cs')
  | _ :: cs' => integrations cs'
  end.

(** A provider over a world that counts the calls answered so far: call
    number [i] is refused when [refuse i] holds; every response carries
    the identifiers the script reads. *)
Definition scripted (refuse : nat -> bool) : Provider nat := {|
  apigw_create_integration := fun _ w =>
    (if refuse w then inl (ClientError "TooManyRequestsException")
     else inr {["IntegrationId" := "int" +:+ pretty w]}, S w);
  apigw_create_route := fun _ w =>
    (if refuse w then inl (ClientError "ConflictException")
     else inr {["RouteId" := "route" +:+ pretty w]}, S w);
  lambda_add_permission := fun _ w =>
    (if refuse w then inl (ClientError "ResourceConflictException")
     else inr ∅, S w);
  time_seconds := fun w => 1700000000%Z;
  time_sleep_half := fun w => w
|}.

Definition fresh : @state nat := State 0 [] [].

(** How many routes a list of calls asks for, and how many permissions. *)
Fixpoint route_creations (cs : list call) : nat :=
  match cs with
  | [] => 0
  | CreateRoute _ :: cs' => S (route_creations cs')
  | _ :: cs' => route_creations cs'
  end.

Fixpoint permissions (cs : list call) : nat :=
  match cs with
  | [] => 0
  | AddPermission _ :: cs' => S (permissions cs')
  | _ :: cs' => permissions cs'
  end.

(** The integration requests among a list of calls, in their order. *)
Fixpoint integration_requests (cs : list call) : list (gmap string string) :=
  match cs with
  | [] => []
  | CreateIntegration kw :: cs' => kw :: integration_requests cs'
  | _ :: cs' => integration_requests cs'
  end.

(** The calls one route can cause: the integration, then the route for
    the identifier answered, then the permission. *)
Definition route_calls (lambda_name path : string) (needs_auth : bool)
    (cs : list call) : Prop :=
  cs = [CreateIntegration (integration_params lambda_name)]
  \/ (exists id,
        cs = [CreateIntegration (integration_params lambda_name);
              CreateRoute (route_params path id needs_auth)])
  \/ (exists id seconds,
        cs = [CreateIntegration (integration_params lambda_name);
              CreateRoute (route_params path id needs_auth);
              AddPermission (permission_params lambda_name seconds)]).

(** A provider whose answers carry the integration identifier but no
    route identifier. *)
Definition tacit : Provider nat := {|
  apigw_create_integration := fun _ w => (inr {["IntegrationId" := "int" +:+ pretty w]}, S w);
  apigw_create_route := fun _ w => (inr ∅, S w);
  lambda_add_permission := fun _ w => (inr ∅, S w);
  time_seconds := fun w => 1700000000%Z;
  time_sleep_half := fun w => w
|}.

End CreateRoutesSpec.

(** ** Vocabulary of the statements about the generator *)

Module GenerateCfLambdasSpec.

Import Re GenerateCfLambdas.

(** The name transformation in the specification's words: a hyphen in
    front of every upper-case letter that is not the first character,
    then the whole name in lower case. *)
Fixpoint hyphenate_inner (s : text) : text :=
  match s with
  | [] => []
  | c :: s' => (if is_AZ c then cp "-" else []) ++ c :: hyphenate_inner s'
  end.

Definition hyphenate (s : text) : text :=
  match s with
  | [] => []
  | c :: s' => c :: hyphenate_inner s'
  end.

Definition kebab_spec `{UnicodeTables} (s : text) : text :=
  lower uni_lower (hyphenate s).

(** What the copying loop gives from position [pos] on, [adv] telling
    whether the hyphen in front of [pos] has been written already. *)
Definition hyphenate_at (adv : bool) (pos : nat) (s : text) : text :=
  match s with
  | [] => []
  | c :: s' =>
      (if negb adv && negb (Nat.eqb pos 0) && is_AZ c then cp "-" else [])
      ++ c :: hyphenate_inner s'
  end.

(** As [chained], and no match is empty. *)
Fixpoint in_document_order (pos : nat) (ms : list found) : Prop :=
  match ms with
  | [] => True
  | f :: ms' => pos <= start f /\ start f < stop f /\ in_document_order (stop f) ms'
  end.

(** The function of a match. *)
Definition func_of (sam_content : text) (f : found) : func :=
  Func (group sam_content f 1) (group sam_content f 2).

(** A function as the scan extracts it. *)
Definition extracted `{UnicodeTables} (f : func) : Prop :=
  (exists c c1 w, name f = c :: c1 :: w /\ is_AZ c = true
     /\ is_letter c1 = true /\ forallb is_letter w = true)
  /\ handler f <> [] /\ forallb is_handler_char (handler f) = true.

(** The mark of a function resource in the output: the end of its type
    [AWS::Lambda::Function]. *)
Definition lambda_resource_type : text := cp "::Lambda::Function".

(** Tables that know no letter and change nothing outside ASCII, for
    evaluating the generator on ASCII documents, where the tables are
    never asked. *)
Definition no_tables : UnicodeTables := {|
  uni_alnum := fun _ => false;
  uni_lower := fun s => s
|}.

(** The input of the specification's scenario. *)
Definition two_functions : text := cp "Resources:
  FetchCostsFunction:
    Type: AWS::Serverless::Function
    Properties:
      FunctionName: !Sub '${ProjectName}-${Environment}-fetch-costs'
      CodeUri: ../backend
      Handler: dist/fetchCosts.handler
      Runtime: nodejs20.x

  ListUsersFunction:
    Type: AWS::Serverless::Function
    Properties:
      FunctionName: !Sub '${ProjectName}-${Environment}-list-users'
      CodeUri: ../backend
      Handler: listUsers.handler
      Runtime: nodejs20.x
".

Definition fetch_costs_block : text := cp "  FetchCostsFunction:
    Type: AWS::Lambda::Function
    Properties:
      FunctionName: !Sub '${ProjectName}-${Environment}-fetch-costs'
      Runtime: nodejs20.x
      Handler: fetchCosts.handler
      Code:
        S3Bucket: !Ref CodeS3Bucket
        S3Key: !Ref CodeS3Key
      Layers:
        - !Ref LayerArn
      Architectures:
        - arm64
      Timeout: 30
      MemorySize: 256
      Role: !GetAtt LambdaExecutionRole.Arn

".

Definition list_users_block : text := cp "  ListUsersFunction:
    Type: AWS::Lambda::Function
    Properties:
      FunctionName: !Sub '${ProjectName}-${Environment}-list-users'
      Runtime: nodejs20.x
      Handler: listUsers.handler
      Code:
        S3Bucket: !Ref CodeS3Bucket
        S3Key: !Ref CodeS3Key
      Layers:
        - !Ref LayerArn
      Architectures:
        - arm64
      Timeout: 30
      MemorySize: 256
      Role: !GetAtt LambdaExecutionRole.Arn

".

(** A declaration whose logical name is the single letter [A]. *)
Definition single_letter : text := cp "Resources:
  AFunction:
    Type: AWS::Serverless::Function
    Properties:
      FunctionName: !Sub '${ProjectName}-${Environment}-a'
      CodeUri: ../backend
      Handler: dist/a.handler
".

(** A handler with [dist/] behind another directory. *)
Definition inner_dist : text := cp "Resources:
  FetchCostsFunction:
    Type: AWS::Serverless::Function
    Properties:
      FunctionName: !Sub '${ProjectName}-${Environment}-fetch-costs'
      CodeUri: ../backend
      Handler: src/dist/fetchCosts.handler
".

(** A declaration without code location and handler, in front of a
    complete one. *)
Definition enclosed_declaration : text := cp "Resources:
  FooFunction:
    Type: AWS::Serverless::Function
    Properties:
      FunctionName: foo
  BarFunction:
    Type: AWS::Serverless::Function
    Properties:
      FunctionName: bar
      CodeUri: ../backend
      Handler: bar.handler
".

(** How often [w] occurs in [s], overlapping occurrences included. *)
Fixpoint occurrences (w s : text) : nat :=
  match s with
  | [] => 0
  | _ :: s' => (if startswith s w then 1 else 0) + occurrences w s'
  end.

(** [A-Z] for [a-z], other characters as they are. *)
Definition ascii_upper (c : char) : char := if is_az c then (c - 32)%N else c.

(** Reading a deployed name back: the character behind a hyphen and the
    first character are raised, the hyphens dropped. *)
Fixpoint unkebab_inner (s : text) : text :=
  match s with
  | [] => []
  | c :: s' =>
      if (c =? 45)%N then
        match s' with
        | [] => []
        | d :: s'' => ascii_upper d :: unkebab_inner s''
        end
      else c :: unkebab_inner s'
  end.

Definition unkebab (s : text) : text :=
  match s with
  | [] => []
  | c :: s' => ascii_upper c :: unkebab_inner s'
  end.

(** A name of letters that starts with an upper-case one. *)
Definition capitalized (n : text) : Prop :=
  exists c w, n = c :: w /\ is_AZ c = true /\ Forall (fun a => is_letter a = true) w.

End GenerateCfLambdasSpec.

(** * Properties of the regular expressions *)

Module ReFacts.

Import Re.

Lemma strip_prefix_app (l s s' : text) :
  strip_prefix l s = Some s' <-> s = l ++ s'.
Proof.
  revert s. induction l as [|a l IH]; intros s; simpl.
  - split; congruence.
  - destruct s as [|b s]; [split; discriminate|].
    destruct (N.eqb_spec a b) as [->|Hne].
    + rewrite IH. split; congruence.
    + split; [discriminate|]. intros [= -> _]. done.
Qed.

Lemma greedy_inv p k pos s r :
  greedy p k pos s = Some r ->
  exists w s', s = w ++ s' /\ forallb p w = true /\ k (pos + length w) s' = Some r.
Proof.
  revert pos. induction s as [|c s IH]; intros pos; simpl.
  - intros Hk. exists [], []. by rewrite Nat.add_0_r.
  - destruct (p c) eqn:Hp.
    + destruct (greedy p k (S pos) s) as [r'|] eqn:Hg.
      * intros [= ->]. destruct (IH _ Hg) as (w & s' & -> & Hw & Hk).
        exists (c :: w), s'. simpl. rewrite Hp, Hw.
        by rewrite Nat.add_succ_r.
      * intros Hk. exists [], (c :: s). by rewrite Nat.add_0_r.
    + intros Hk. exists [], (c :: s). by rewrite Nat.add_0_r.
Qed.

Lemma lazy_inv p k pos s r :
  lazy p k pos s = Some r ->
  exists w s', s = w ++ s' /\ forallb p w = true /\ k (pos + length w) s' = Some r.
Proof.
  revert pos. induction s as [|c s IH]; intros pos; simpl.
  - destruct (k pos []) eqn:Hk; [|done].
    intros [= ->]. exists [], []. by rewrite Nat.add_0_r.
  - destruct (k pos (c :: s)) eqn:Hk.
    + intros [= ->]. exists [], (c :: s). by rewrite Nat.add_0_r.
    + destruct (p c) eqn:Hp; [|done]. intros Hl.
      destruct (IH _ Hl) as (w & s' & -> & Hw & Hk').
      exists (c :: w), s'. simpl. rewrite Hp, Hw.
      by rewrite Nat.add_succ_r.
Qed.

Lemma run_Lit l k ok m pos s r :
  run (Lit l :: k) ok m pos s = Some r ->
  exists s', s = l ++ s' /\ run k ok m (pos + length l) s' = Some r.
Proof.
  simpl. destruct (strip_prefix l s) as [s'|] eqn:Hs; [|done].
  apply strip_prefix_app in Hs. eauto.
Qed.

Lemma run_One p k ok m pos s r :
  run (One p :: k) ok m pos s = Some r ->
  exists c s', s = c :: s' /\ p c = true /\ run k ok m (S pos) s' = Some r.
Proof.
  simpl. destruct s as [|c s']; [done|]. destruct (p c) eqn:Hp; [|done]. eauto.
Qed.

Lemma run_Plus p k ok m pos s r :
  run (Plus p :: k) ok m pos s = Some r ->
  exists c w s', s = c :: w ++ s' /\ p c = true /\ forallb p w = true
    /\ run k ok m (S pos + length w) s' = Some r.
Proof.
  simpl. destruct s as [|c s0]; [done|]. destruct (p c) eqn:Hp; [|done].
  intros Hg. apply greedy_inv in Hg as (w & s' & -> & Hw & Hk). eauto 10.
Qed.

Lemma run_LazyStar p k ok m pos s r :
  run (LazyStar p :: k) ok m pos s = Some r ->
  exists w s', s = w ++ s' /\ forallb p w = true
    /\ run k ok m (pos + length w) s' = Some r.
Proof. simpl. apply lazy_inv. Qed.

Lemma run_Mark i k ok m pos s r :
  run (Mark i :: k) ok m pos s = Some r -> run k ok ((i, pos) :: m) pos s = Some r.
Proof. done. Qed.

Lemma run_nil ok m pos s r :
  run [] ok m pos s = Some r -> r = (m, pos, s) /\ ok pos = true.
Proof. simpl. destruct (ok pos); [|done]. by intros [= <-]. Qed.

(** A match is a stretch of the text in front of what is left, and its
    end has been accepted. *)
Lemma run_stretch its ok m pos s m' e s' :
  run its ok m pos s = Some (m', e, s') ->
  exists w, s = w ++ s' /\ e = pos + length w /\ ok e = true.
Proof.
  revert m pos s. induction its as [|it its IH]; intros m pos s Hrun.
  - apply run_nil in Hrun as [[= -> -> ->] Hok]. exists []. by rewrite Nat.add_0_r.
  - destruct it.
    + apply run_Lit in Hrun as (s1 & -> & Hrun).
      apply IH in Hrun as (w & -> & -> & Hok).
      exists (l ++ w). rewrite length_app, <- (assoc_L (++)). split_and!; [done|lia|done].
    + apply run_One in Hrun as (c & s1 & -> & _ & Hrun).
      apply IH in Hrun as (w & -> & -> & Hok).
      exists (c :: w). simpl. split_and!; [done|lia|done].
    + apply run_Plus in Hrun as (c & w1 & s1 & -> & _ & _ & Hrun).
      apply IH in Hrun as (w & -> & -> & Hok).
      exists (c :: w1 ++ w). simpl. rewrite length_app, <- (assoc_L (++)).
      split_and!; [done|lia|done].
    + apply run_LazyStar in Hrun as (w1 & s1 & -> & _ & Hrun).
      apply IH in Hrun as (w & -> & -> & Hok).
      exists (w1 ++ w). rewrite length_app, <- (assoc_L (++)). split_and!; [done|lia|done].
    + apply run_Mark, IH in Hrun. done.
    + simpl in Hrun. destruct (Nat.eqb pos 0); [done|]. by apply IH in Hrun.
    + simpl in Hrun. destruct s as [|c s0]; [done|]. destruct (p c); [|done].
      by apply IH in Hrun.
Qed.

(** The first match behind [pos]: what is skipped, what is matched and
    what is left. *)
Lemma search_inv its adv pos s f :
  search its adv pos s = Some f ->
  exists pre w ok,
    s = pre ++ w ++ rest f /\ start f = pos + length pre
    /\ stop f = start f + length w
    /\ run its ok [] (start f) (w ++ rest f) = Some (groups f, stop f, rest f)
    /\ (adv = true -> length pre + length w <> 0).
Proof.
  revert adv pos. induction s as [|c s IH]; intros adv pos; simpl.
  - destruct (run its (allowed adv pos) [] pos []) as [[[m e] s']|] eqn:Hrun; [|done].
    intros [= <-]. simpl.
    destruct (run_stretch _ _ _ _ _ _ _ _ Hrun) as (w & Hs & -> & Hok).
    exists [], w, (allowed adv pos). rewrite <- Hs. simpl.
    rewrite Nat.add_0_r. split_and!; try done.
    intros ->. unfold allowed in Hok. simpl in Hok.
    apply negb_true_iff, Nat.eqb_neq in Hok. lia.
  - destruct (run its (allowed adv pos) [] pos (c :: s)) as [[[m e] s']|] eqn:Hrun.
    + intros [= <-]. simpl.
      destruct (run_stretch _ _ _ _ _ _ _ _ Hrun) as (w & Hs & -> & Hok).
      exists [], w, (allowed adv pos). rewrite <- Hs. simpl.
      rewrite Nat.add_0_r. split_and!; try done.
      intros ->. unfold allowed in Hok. simpl in Hok.
      apply negb_true_iff, Nat.eqb_neq in Hok. lia.
    + intros Hs. apply IH in Hs as (pre & w & ok & -> & Hst & Hsp & Hrun' & _).
      exists (c :: pre), w, ok. simpl. split_and!; try done; lia.
Qed.

(** The matches come in the order of the text and do not overlap. *)
Lemma finditer_from_chained its fuel adv pos s :
  chained pos (finditer_from its fuel adv pos s).
Proof.
  revert adv pos s. induction fuel as [|fuel IH]; intros adv pos s; simpl; [done|].
  destruct (search its adv pos s) as [f|] eqn:Hs; simpl; [|done].
  apply search_inv in Hs as (pre & w & ok & _ & Hst & Hsp & _).
  split_and!; [lia|lia|apply IH].
Qed.

(** Every match found in [doc] is a run of the pattern on the text of
    [doc] from where the match starts. *)
Lemma finditer_from_run its (doc : text) fuel adv pos (f : found) :
  f ∈ finditer_from its fuel adv pos (drop pos doc) ->
  exists ok,
    run its ok [] (start f) (drop (start f) doc)
    = Some (groups f, stop f, drop (stop f) doc).
Proof.
  revert adv pos. induction fuel as [|fuel IH]; intros adv pos; simpl.
  - by intros ?%elem_of_nil.
  - destruct (search its adv pos (drop pos doc)) as [f0|] eqn:Hs;
      [|by intros ?%elem_of_nil].
    apply search_inv in Hs as (pre & w & ok & Hdoc & Hst & Hsp & Hrun & _).
    assert (Hstart : drop (start f0) doc = w ++ rest f0).
    { rewrite Hst, <- drop_drop, Hdoc. by rewrite drop_app_length. }
    assert (Hstop : drop (stop f0) doc = rest f0).
    { rewrite Hsp, <- drop_drop, Hstart. by rewrite drop_app_length. }
    intros [->|Hin]%elem_of_cons.
    + exists ok. by rewrite Hstart, Hstop.
    + rewrite <- Hstop in Hin. by apply IH in Hin.
Qed.

(** The turns of the loop are bounded: any fuel above twice the length
    of the text gives the same matches. *)
Lemma finditer_from_fuel its fuel1 fuel2 (adv : bool) pos (s : text) :
  2 * length s + (if adv then 0 else 1) < fuel1 ->
  2 * length s + (if adv then 0 else 1) < fuel2 ->
  finditer_from its fuel1 adv pos s = finditer_from its fuel2 adv pos s.
Proof.
  revert fuel2 adv pos s.
  induction fuel1 as [|fuel1 IH]; intros fuel2 adv pos s H1 H2; [lia|].
  destruct fuel2 as [|fuel2]; [lia|]. simpl.
  destruct (search its adv pos s) as [f|] eqn:Hs; [|done].
  f_equal. apply search_inv in Hs as (pre & w & ok & -> & Hst & Hsp & _ & Hadv).
  rewrite !length_app in H1, H2.
  assert (Hflag : Nat.eqb (stop f) (start f) = bool_decide (length w = 0)).
  { case_bool_decide; [apply Nat.eqb_eq|apply Nat.eqb_neq]; lia. }
  rewrite Hflag.
  apply IH; case_bool_decide; destruct adv; try lia;
    (assert (length pre + length w <> 0) by (by apply Hadv)); lia.
Qed.

Lemma finditer_enough_fuel its s fuel :
  2 * length s + 1 < fuel -> finditer_from its fuel false 0 s = finditer its s.
Proof. intros Hf. unfold finditer. apply finditer_from_fuel; lia. Qed.

Lemma finditer_chained its s : chained 0 (finditer its s).
Proof. apply finditer_from_chained. Qed.

Lemma finditer_run its (doc : text) (f : found) :
  f ∈ finditer its doc ->
  exists ok,
    run its ok [] (start f) (drop (start f) doc)
    = Some (groups f, stop f, drop (stop f) doc).
Proof. unfold finditer. intros Hin. by eapply (finditer_from_run its doc _ false 0). Qed.

(** Copying up to a match that lies further right copies the character
    in front of it first. *)
Lemma splice_skip repl ms pos c s :
  chained (S pos) ms ->
  splice repl ms pos (c :: s) = c :: splice repl ms (S pos) s.
Proof.
  destruct ms as [|f ms]; simpl; [done|]. intros (Hst & Hsp & _).
  replace (start f - pos) with (S (start f - S pos)) by lia.
  replace (stop f - pos) with (S (stop f - S pos)) by lia. done.
Qed.

End ReFacts.

(** * Properties of the template generator *)

Module GeneratorFacts.

Import Re GenerateCfLambdas GenerateCfLambdasSpec ReFacts.

Ltac run_step H :=
  match type of H with
  | run (Lit _ :: _) _ _ _ _ = Some _ =>
      let s := fresh "s" in apply run_Lit in H as (s & -> & H)
  | run (One _ :: _) _ _ _ _ = Some _ =>
      let c := fresh "c" in let s := fresh "s" in let Hc := fresh "Hc" in
      apply run_One in H as (c & s & -> & Hc & H)
  | run (Plus _ :: _) _ _ _ _ = Some _ =>
      let c := fresh "c" in let w := fresh "w" in let s := fresh "s" in
      let Hc := fresh "Hc" in let Hw := fresh "Hw" in
      apply run_Plus in H as (c & w & s & -> & Hc & Hw & H)
  | run (LazyStar _ :: _) _ _ _ _ = Some _ =>
      let w := fresh "w" in let s := fresh "s" in let Hw := fresh "Hw" in
      apply run_LazyStar in H as (w & s & -> & Hw & H)
  | run (Mark _ :: _) _ _ _ _ = Some _ => apply run_Mark in H
  end.

Ltac lengths :=
  repeat rewrite ?length_app, ?length_cons;
  repeat match goal with
    | |- context [length (cp ?x)] =>
        let n := eval vm_compute in (length (cp x)) in
        change (length (cp x)) with n
    end.

Lemma pattern_run_shape `{UnicodeTables} ok st s m e r :
  run pattern ok [] st s = Some (m, e, r) ->
  exists c c1 w tail front hs,
    s = cp "  " ++ (c :: c1 :: w) ++ cp "Function:" ++ tail
    /\ s = front ++ hs ++ r
    /\ is_AZ c = true /\ is_letter c1 = true /\ forallb is_letter w = true
    /\ hs <> [] /\ forallb is_handler_char hs = true
    /\ mark m 0 = Some (st + 2)
    /\ mark m 1 = Some (st + 2 + length (c :: c1 :: w))
    /\ mark m 2 = Some (st + length front)
    /\ mark m 3 = Some (st + length front + length hs)
    /\ e = st + length front + length hs.
Proof.
  unfold pattern. intros Hrun. repeat run_step Hrun.
  apply run_nil in Hrun as [[= -> -> ->] _].
  eexists c, c0, w, _,
    (cp "  " ++ (c :: c0 :: w) ++ cp "Function:" ++ (c1 :: w0)
     ++ cp "Type: AWS::Serverless::Function" ++ (c2 :: w1)
     ++ cp "Properties:" ++ (c3 :: w2) ++ cp "FunctionName:" ++ w3
     ++ (c4 :: w4) ++ cp "CodeUri:" ++ w5 ++ (c5 :: w6) ++ cp "Handler: "),
    (c6 :: w7).
  split; [reflexivity|].
  split; [by rewrite <- !app_assoc|].
  split_and!; try done.
  - simpl. by rewrite Hc6, Hw7.
  - simpl. f_equal. lia.
  - simpl mark. f_equal. lengths. lia.
  - simpl mark. f_equal. lengths. lia.
  - lengths. lia.
Qed.

Lemma slice_drop (doc : text) a (w r : text) :
  drop a doc = w ++ r -> slice doc a (a + length w) = w.
Proof.
  intros Hd. unfold slice. rewrite Hd.
  replace (a + length w - a) with (length w) by lia.
  by rewrite take_app_length.
Qed.

Lemma group_texts `{UnicodeTables} (doc : text) (f : found) :
  f ∈ finditer pattern doc ->
  exists c c1 w hs,
    group doc f 1 = c :: c1 :: w /\ group doc f 2 = hs
    /\ is_AZ c = true /\ is_letter c1 = true /\ forallb is_letter w = true
    /\ hs <> [] /\ forallb is_handler_char hs = true
    /\ start f < stop f.
Proof.
  intros Hin. apply finditer_run in Hin as (ok & Hrun).
  apply pattern_run_shape in Hrun
    as (c & c1 & w & tail & front & hs & Hname & Hfront & Hc & Hc1 & Hw
        & Hne & Hhs & M0 & M1 & M2 & M3 & He).
  exists c, c1, w, hs. split_and!; try done.
  - unfold group. change (2 * 1 - 2) with 0. change (2 * 1 - 1) with 1.
    rewrite M0, M1. apply slice_drop with (r := cp "Function:" ++ tail).
    rewrite <- drop_drop, Hname. reflexivity.
  - unfold group. change (2 * 2 - 2) with 2. change (2 * 2 - 1) with 3.
    rewrite M2, M3. apply slice_drop with (r := drop (stop f) doc).
    rewrite <- drop_drop, Hfront. by rewrite drop_app_length.
  - destruct hs; [done|]. simpl in He. lia.
Qed.

Lemma finditer_from_cons_fail its fuel (adv : bool) (pos : nat) (c : char) (s : text) :
  run its (allowed adv pos) [] pos (c :: s) = None ->
  finditer_from its (S fuel) adv pos (c :: s)
  = finditer_from its (S fuel) false (S pos) s.
Proof. intros Hrun. simpl. rewrite Hrun. done. Qed.

Lemma hyphen_sites_run (ok : nat -> bool) (pos : nat) (c : char) (s : text) :
  run hyphen_sites ok [] pos (c :: s)
  = if negb (Nat.eqb pos 0) && is_AZ c && ok pos then Some ([], pos, c :: s) else None.
Proof. simpl. destruct (Nat.eqb pos 0), (is_AZ c), (ok pos); done. Qed.

Lemma hyphenate_at_inner (pos : nat) (s : text) : hyphenate_at false (S pos) s = hyphenate_inner s.
Proof. by destruct s. Qed.

Lemma splice_hyphen_sites (s : text) (fuel : nat) (adv : bool) (pos : nat) :
  2 * length s + (if adv then 0 else 1) < fuel ->
  splice (cp "-") (finditer_from hyphen_sites fuel adv pos s) pos s
  = hyphenate_at adv pos s.
Proof.
  revert fuel adv pos. induction s as [|c s IH]; intros fuel adv pos Hfuel.
  - destruct fuel as [|fuel]; [lia|]. simpl.
    by destruct (Nat.eqb pos 0).
  - assert (Hskip : forall fuel' adv',
      2 * length s + 1 < S fuel' ->
      run hyphen_sites (allowed adv' pos) [] pos (c :: s) = None ->
      splice (cp "-") (finditer_from hyphen_sites (S fuel') adv' pos (c :: s)) pos (c :: s)
      = c :: hyphenate_inner s).
    { intros fuel' adv' Hf Hrun. rewrite finditer_from_cons_fail by done.
      rewrite splice_skip by apply finditer_from_chained.
      rewrite IH by (simpl; lia). by rewrite hyphenate_at_inner. }
    destruct fuel as [|fuel]; [lia|]. simpl length in Hfuel.
    destruct (negb adv && negb (Nat.eqb pos 0) && is_AZ c) eqn:Hsite.
    + apply andb_true_iff in Hsite as [[Hadv%negb_true_iff Hpos]%andb_true_iff HAZ].
      subst adv. unfold hyphenate_at. simpl negb. rewrite Hpos, HAZ. simpl andb.
      cbv iota.
      change (finditer_from hyphen_sites (S fuel) false pos (c :: s))
        with (match search hyphen_sites false pos (c :: s) with
              | None => []
              | Some f => f :: finditer_from hyphen_sites fuel
                                 (Nat.eqb (stop f) (start f)) (stop f) (rest f)
              end).
      change (search hyphen_sites false pos (c :: s))
        with (match run hyphen_sites (allowed false pos) [] pos (c :: s) with
              | Some (m, e, s') => Some (Found pos m e s')
              | None => search hyphen_sites false (S pos) s
              end).
      rewrite hyphen_sites_run, Hpos, HAZ. simpl.
      rewrite Nat.sub_diag, Nat.eqb_refl. simpl.
      destruct fuel as [|fuel]; [lia|].
      rewrite (Hskip fuel true); [done|lia|].
      rewrite hyphen_sites_run. unfold allowed. simpl. rewrite Nat.eqb_refl.
      by rewrite andb_false_r.
    + rewrite (Hskip fuel adv); [|destruct adv; lia|].
      * unfold hyphenate_at. by rewrite Hsite.
      * rewrite hyphen_sites_run. unfold allowed.
        destruct adv; simpl in *.
        -- rewrite Nat.eqb_refl. by rewrite andb_false_r.
        -- by rewrite Hsite.
Qed.

Lemma sub_hyphen_sites (s : text) : sub hyphen_sites (cp "-") s = hyphenate s.
Proof.
  unfold sub, finditer. rewrite splice_hyphen_sites by lia.
  by destruct s.
Qed.

Lemma fold_left_append {A B : Type} (g : A -> list B) (l : list A) (acc : list B) :
  fold_left (fun t x => t ++ g x) l acc = acc ++ concat (map g l).
Proof.
  revert acc. induction l as [|x l IH]; intros acc; simpl.
  - by rewrite app_nil_r.
  - by rewrite IH, <- app_assoc.
Qed.

Lemma chained_in_order pos (ms : list found) :
  chained pos ms -> Forall (fun f => start f < stop f) ms ->
  in_document_order pos ms.
Proof.
  revert pos. induction ms as [|f ms IH]; intros pos; simpl; [done|].
  intros (Hst & _ & Hch) [Hlt Hall]%Forall_cons. auto.
Qed.

(** [str.replace] with [dist/]: a leading occurrence goes, and so does
    every other one; without an occurrence the handler stays. *)
Lemma strip_dist_prefix (h : text) : strip_dist (cp "dist/" ++ h) = strip_dist h.
Proof. reflexivity. Qed.

Lemma strip_dist_absent (h : text) :
  occurrences (cp "dist/") h = 0 -> strip_dist h = h.
Proof.
  unfold strip_dist, replace. change (cp "dist/") with [100; 105; 115; 116; 47]%N.
  induction h as [|c h IH]; [done|].
  cbn [occurrences replace_from].
  destruct (startswith (c :: h) _); [done|].
  intros Hocc. f_equal. by apply IH.
Qed.

Lemma occurrences_skip (c0 : char) (w v rest : text) :
  Forall (fun c => c <> c0) v ->
  occurrences (c0 :: w) (v ++ rest) = occurrences (c0 :: w) rest.
Proof.
  induction 1 as [|c v Hc _ IH]; [done|].
  cbn [app occurrences]. rewrite IH. unfold startswith. cbn [strip_prefix].
  destruct (N.eqb_spec c0 c) as [->|_]; done.
Qed.

Lemma occurrences_head (rest : text) :
  occurrences lambda_resource_type (cf_template_head ++ rest)
  = occurrences lambda_resource_type rest.
Proof. vm_compute. reflexivity. Qed.

Lemma replace_from_subset (old : text) (skip : nat) (s : text) (c : char) :
  c ∈ replace_from old [] skip s -> c ∈ s.
Proof.
  revert skip. induction s as [|a s IH]; intros skip; cbn [replace_from]; [done|].
  destruct skip as [|k].
  - destruct (startswith (a :: s) old); cbn [app].
    + intros Hin%IH. by right.
    + intros [->|Hin%IH]%elem_of_cons; [left|by right].
  - intros Hin%IH. by right.
Qed.

Lemma strip_dist_subset (h : text) (c : char) : c ∈ strip_dist h -> c ∈ h.
Proof. apply replace_from_subset. Qed.

Lemma letter_not_colon (c : char) : is_letter c = true -> c <> 58%N.
Proof. intros Hc ->. done. Qed.

Lemma letter_lower (c : char) :
  is_letter c = true \/ c = 45%N ->
  is_ascii c = true /\ ascii_lower c <> 58%N.
Proof.
  intros [Hc| ->]; [|done].
  assert (Hr : (65 <= c <= 90 \/ 97 <= c <= 122)%N).
  { unfold is_letter, is_az, is_AZ, in_range in Hc.
    apply orb_true_iff in Hc as [Hc|Hc];
      apply andb_true_iff in Hc as [?%N.leb_le ?%N.leb_le]; lia. }
  split.
  - apply N.ltb_lt. lia.
  - unfold ascii_lower. destruct (is_AZ c); lia.
Qed.

Lemma hyphenate_inner_chars (s : text) (c : char) :
  Forall (fun a => is_letter a = true) s ->
  c ∈ hyphenate_inner s -> is_letter c = true \/ c = 45%N.
Proof.
  induction 1 as [|a s Ha _ IH]; cbn [hyphenate_inner]; [by intros ?%elem_of_nil|].
  rewrite elem_of_app, elem_of_cons. intros [Hin|[->|Hin]]; [|by left|by auto].
  destruct (is_AZ a); [|by apply elem_of_nil in Hin].
  apply list_elem_of_singleton in Hin. by right.
Qed.

Lemma hyphenate_chars (s : text) (c : char) :
  Forall (fun a => is_letter a = true) s ->
  c ∈ hyphenate s -> is_letter c = true \/ c = 45%N.
Proof.
  destruct 1 as [|a s Ha Hs]; cbn [hyphenate]; [by intros ?%elem_of_nil|].
  intros [->|Hin]%elem_of_cons; [by left|]. by eapply hyphenate_inner_chars.
Qed.

Section Tables.

Context `{UnicodeTables}.

(** The two loops, as one block per match. *)
Lemma functions_finditer (doc : text) :
  functions doc = map (func_of doc) (finditer pattern doc).
Proof.
  unfold functions, matches, findall2.
  rewrite (fold_left_append (fun m => [Func (fst m) (snd m)])).
  simpl. rewrite map_map. induction (finditer pattern doc); simpl; [done|].
  by f_equal.
Qed.

Lemma cf_template_blocks (doc : text) :
  cf_template doc
  = cf_template_head ++ concat (map function_block (functions doc))
    ++ cf_template_outputs.
Proof. unfold cf_template. by rewrite fold_left_append, <- app_assoc. Qed.

Lemma pattern_in_order (doc : text) : in_document_order 0 (finditer pattern doc).
Proof.
  apply chained_in_order; [apply finditer_chained|].
  apply Forall_forall. intros f Hin.
  by apply group_texts in Hin as (_ & _ & _ & _ & _ & _ & _ & _ & _ & _ & _ & Hlt).
Qed.

Lemma func_name_kebab_spec (s : text) : func_name_kebab s = kebab_spec s.
Proof. unfold func_name_kebab, kebab_spec. by rewrite sub_hyphen_sites. Qed.

Lemma kebab_no_colon (n : text) :
  Forall (fun a => is_letter a = true) n ->
  Forall (fun c => c <> 58%N) (func_name_kebab n).
Proof.
  intros Hn. rewrite func_name_kebab_spec. unfold kebab_spec, lower.
  assert (Hall : Forall (fun c => is_ascii c = true /\ ascii_lower c <> 58%N) (hyphenate n)).
  { apply Forall_forall. intros c Hc. apply letter_lower. by eapply hyphenate_chars. }
  replace (forallb is_ascii (hyphenate n)) with true.
  - apply Forall_fmap. eapply Forall_impl; [exact Hall|]. by intros c [_ ?].
  - symmetry. apply forallb_forall. intros c Hc%list_elem_of_In.
    by eapply (proj1 (Forall_forall _ _) Hall) in Hc as [? _].
Qed.

Lemma handler_char_not_colon (c : char) : is_handler_char c = true -> c <> 58%N.
Proof. intros Hc ->. done. Qed.

Lemma extracted_name_letters (f : func) :
  extracted f -> Forall (fun a => is_letter a = true) (name f).
Proof.
  intros [(c & c1 & w & -> & Hc & Hc1 & Hw) _].
  repeat apply Forall_cons_2.
  - unfold is_letter. rewrite Hc. by rewrite orb_true_r.
  - done.
  - apply Forall_forall. intros a Ha%list_elem_of_In.
    by eapply forallb_forall in Hw.
Qed.

Lemma occurrences_block (f : func) (rest : text) :
  extracted f ->
  occurrences lambda_resource_type (function_block f ++ rest)
  = S (occurrences lambda_resource_type rest).
Proof.
  intros Hf. pose proof (extracted_name_letters f Hf) as Hn.
  destruct Hf as (_ & _ & Hh).
  unfold function_block. rewrite <- !app_assoc.
  change lambda_resource_type with (58%N :: cp ":Lambda::Function").
  change (occurrences (58%N :: cp ":Lambda::Function") (cp "  " ++ ?x))
    with (occurrences (58%N :: cp ":Lambda::Function") x).
  rewrite occurrences_skip.
  2: { eapply Forall_impl; [exact Hn|]. apply letter_not_colon. }
  match goal with
  | |- occurrences ?n (cp ?a ++ ?x) = _ =>
      change (occurrences n (cp a ++ x)) with (S (occurrences n x))
  end.
  rewrite occurrences_skip by (by apply kebab_no_colon).
  match goal with
  | |- S (occurrences ?n (cp ?a ++ ?x)) = _ =>
      change (occurrences n (cp a ++ x)) with (occurrences n x)
  end.
  rewrite occurrences_skip.
  2: { apply Forall_forall. intros c Hc%strip_dist_subset%list_elem_of_In.
       eapply forallb_forall in Hh; [|done]. by apply handler_char_not_colon. }
  reflexivity.
Qed.

Lemma occurrences_blocks (fs : list func) (rest : text) :
  Forall extracted fs ->
  occurrences lambda_resource_type (concat (map function_block fs) ++ rest)
  = length fs + occurrences lambda_resource_type rest.
Proof.
  induction 1 as [|f fs Hf _ IH]; [done|].
  cbn [map concat length]. rewrite <- app_assoc, occurrences_block by done.
  rewrite IH. done.
Qed.

Lemma functions_extracted (doc : text) : Forall extracted (functions doc).
Proof.
  rewrite functions_finditer. apply Forall_fmap, Forall_forall. intros m Hin.
  apply group_texts in Hin as (c & c1 & w & hs & Hn & Hh & ? & ? & ? & ? & ? & _).
  unfold extracted, func_of. simpl. rewrite Hn, Hh. eauto 10.
Qed.

Lemma blocks_in_output (doc : text) :
  occurrences lambda_resource_type (cf_template doc) = length (matches doc).
Proof.
  rewrite cf_template_blocks, occurrences_head.
  rewrite occurrences_blocks by apply functions_extracted.
  change (occurrences lambda_resource_type cf_template_outputs) with 0.
  rewrite functions_finditer. unfold matches, findall2.
  rewrite !length_map. lia.
Qed.


Lemma main_reads (files : gmap string text) (doc : text) :
  files !! sam_template = Some doc ->
  main files
  = inr (<[production_template := cf_template doc]> files,
         [found_line (length (functions doc));
          generated_line (length (functions doc))]).
Proof. intros Hdoc. unfold main. by rewrite Hdoc. Qed.

(** C2, at an input on which the code and the claim part: the handler
    [src/dist/fetchCosts.handler] does not start with [dist/], the scan
    extracts it, and the normalization does not pass it through
    unchanged but writes [src/fetchCosts.handler] into the output. *)
Theorem strip_dist_inner_occurrence :
  startswith (cp "src/dist/fetchCosts.handler") (cp "dist/") = false
  /\ strip_dist (cp "src/dist/fetchCosts.handler") = cp "src/fetchCosts.handler"
  /\ matches inner_dist = [(cp "FetchCosts", cp "src/dist/fetchCosts.handler")]
  /\ occurrences (cp "      Handler: src/fetchCosts.handler") (cf_template inner_dist) = 1.
Proof. split_and!; vm_compute; reflexivity. Qed.

(** C3: the name transformation is the function that puts a hyphen in
    front of every upper-case letter but the first character and then
    lowers the whole name; [UserLogin] gives [user-login], [A] gives [a]
    and [ABCTest] gives [a-b-c-test]. *)
Theorem kebab_hyphenates :
  (forall s : text, func_name_kebab s = kebab_spec s)
  /\ func_name_kebab (cp "UserLogin") = cp "user-login"
  /\ func_name_kebab (cp "A") = cp "a"
  /\ func_name_kebab (cp "ABCTest") = cp "a-b-c-test".
Proof.
  split_and!; [apply func_name_kebab_spec|vm_compute; reflexivity..].
Qed.

(** C4: for every input document the output is the head, one resource
    block per match of the scan pattern in the order of the matches, and
    the closing section; the matches lie in the document from left to
    right; the output holds as many function resources as there are
    matches; and the scenario with [FetchCosts] and [ListUsers] gives
    the two expected blocks, one execution role and two outputs. *)
Theorem one_block_per_match :
  (forall doc : text,
     cf_template doc
     = cf_template_head
       ++ concat (map (fun f => function_block (func_of doc f)) (finditer pattern doc))
       ++ cf_template_outputs
     /\ in_document_order 0 (finditer pattern doc)
     /\ occurrences lambda_resource_type (cf_template doc) = length (matches doc))
  /\ matches two_functions
     = [(cp "FetchCosts", cp "dist/fetchCosts.handler");
        (cp "ListUsers", cp "listUsers.handler")]
  /\ cf_template two_functions
     = cf_template_head ++ fetch_costs_block ++ list_users_block
       ++ cf_template_outputs
  /\ occurrences (cp "Type: AWS::IAM::Role") (cf_template two_functions) = 1
  /\ occurrences (cp "    Value: ") (cf_template two_functions) = 2.
Proof.
  split_and!; [|vm_compute; reflexivity..].
  intros doc. split_and!.
  - by rewrite cf_template_blocks, functions_finditer, map_map.
  - apply pattern_in_order.
  - apply blocks_in_output.
Qed.

(** C8: the output document and the printed lines depend on the input
    document alone, and a second run on the files the first run left
    writes the same output again. *)
Theorem generator_deterministic (files files' : gmap string text) (doc : text) :
  files !! sam_template = Some doc ->
  files' !! sam_template = Some doc ->
  exists out printed,
    main files = inr (<[production_template := out]> files, printed)
    /\ main files' = inr (<[production_template := out]> files', printed)
    /\ main (<[production_template := out]> files)
       = inr (<[production_template := out]> files, printed).
Proof.
  intros Hdoc Hdoc'. eexists _, _. split_and!.
  - by apply main_reads.
  - by apply main_reads.
  - rewrite (main_reads _ doc).
    + by rewrite insert_insert_eq.
    + by rewrite lookup_insert_ne.
Qed.

(** C9: when the scan pattern matches nowhere, the run still writes an
    output document, and it is the head (parameters and execution role)
    followed by the closing section, with no function resource in it. *)
Theorem no_match_no_block (files : gmap string text) (doc : text) :
  files !! sam_template = Some doc ->
  matches doc = [] ->
  cf_template doc = cf_template_head ++ cf_template_outputs
  /\ occurrences lambda_resource_type (cf_template doc) = 0
  /\ occurrences (cp "Type: AWS::IAM::Role") (cf_template doc) = 1
  /\ exists printed,
       main files
       = inr (<[production_template := cf_template_head ++ cf_template_outputs]> files,
              printed).
Proof.
  intros Hdoc Hno.
  assert (Hf : functions doc = []) by (unfold functions; by rewrite Hno).
  assert (Ht : cf_template doc = cf_template_head ++ cf_template_outputs).
  { rewrite cf_template_blocks, Hf. done. }
  split_and!; [done|rewrite Ht; vm_compute; reflexivity..|].
  eexists. rewrite (main_reads _ doc) by done. by rewrite Ht.
Qed.

(** C10: every name the scan extracts is an upper-case letter followed
    by at least one more letter, so no extracted function, and no
    resource block of the output, has a single-letter name. *)
Theorem single_letter_not_extracted (doc n h : text) :
  (n, h) ∈ matches doc ->
  (exists c c1 w, n = c :: c1 :: w /\ is_AZ c = true /\ is_letter c1 = true
     /\ forallb is_letter w = true)
  /\ 2 <= length n
  /\ Func n h ∈ functions doc
  /\ (forall f, f ∈ functions doc -> 2 <= length (name f)).
Proof.
  assert (Hall : forall f, f ∈ functions doc ->
    exists c c1 w, name f = c :: c1 :: w /\ is_AZ c = true /\ is_letter c1 = true
      /\ forallb is_letter w = true).
  { intros f Hf.
    by apply (proj1 (Forall_forall _ _) (functions_extracted doc)) in Hf as [? _]. }
  intros Hin.
  assert (Hf : Func n h ∈ functions doc).
  { rewrite functions_finditer. unfold matches, findall2 in Hin.
    apply list_elem_of_fmap in Hin as (f & [= -> ->] & Hin).
    apply list_elem_of_fmap. by exists f. }
  destruct (Hall _ Hf) as (c & c1 & w & Hn & Hc & Hc1 & Hw). simpl in Hn.
  split_and!.
  - by exists c, c1, w.
  - rewrite Hn. simpl. lia.
  - done.
  - intros f (c' & c1' & w' & -> & _)%Hall. simpl. lia.
Qed.

End Tables.

(** A document whose only declaration has a single-letter name yields
    no function and the output without a resource block. *)
Lemma single_letter_ignored :
  matches (H := no_tables) single_letter = []
  /\ cf_template (H := no_tables) single_letter
     = cf_template_head ++ cf_template_outputs.
Proof. split; vm_compute; reflexivity. Qed.

(** Matches do not overlap: the scan that starts at [Foo] runs on to the
    handler of [Bar], and [Bar], a match of its own when the text starts
    there, is not found again. *)
Example enclosed_declaration_skipped :
  matches (H := no_tables) enclosed_declaration = [(cp "Foo", cp "bar.handler")]
  /\ matches (H := no_tables) (drop 100 enclosed_declaration)
     = [(cp "Bar", cp "bar.handler")].
Proof. split; vm_compute; reflexivity. Qed.

Lemma generator_deterministic_witness :
  exists out printed,
    main (H := no_tables) {[sam_template := two_functions]}
    = inr (<[production_template := out]> {[sam_template := two_functions]}, printed)
    /\ main (H := no_tables)
         (<["README.md" := cp "notes"]> {[sam_template := two_functions]})
       = inr (<[production_template := out]>
                (<["README.md" := cp "notes"]> {[sam_template := two_functions]}),
              printed)
    /\ main (H := no_tables)
         (<[production_template := out]> {[sam_template := two_functions]})
       = inr (<[production_template := out]> {[sam_template := two_functions]},
              printed).
Proof.
  apply (generator_deterministic (H := no_tables) _ _ two_functions);
    vm_compute; reflexivity.
Defined.

Lemma no_match_no_block_witness :
  cf_template (H := no_tables) single_letter
  = cf_template_head ++ cf_template_outputs.
Proof.
  apply (no_match_no_block (H := no_tables)
           {[sam_template := single_letter]} single_letter);
    vm_compute; reflexivity.
Defined.

Lemma single_letter_not_extracted_witness :
  2 <= length (cp "FetchCosts").
Proof.
  apply (single_letter_not_extracted (H := no_tables) two_functions
           (cp "FetchCosts") (cp "dist/fetchCosts.handler")).
  vm_compute. apply list_elem_of_here.
Defined.

End GeneratorFacts.

(** * Properties of the route provisioner *)

Module RoutesFacts.

Import CreateRoutes CreateRoutesSpec.

Lemma integrations_app (cs cs' : list call) :
  integrations (cs ++ cs') = integrations cs + integrations cs'.
Proof.
  induction cs as [|c cs IH]; [done|]. destruct c; simpl; rewrite IH; lia.
Qed.

Section Script.
Context {World : Type} `{Provider World}.

(** What [create_route] does, case by case. *)
Lemma create_route_cases (lambda_name path : string) (needs_auth : bool) (st : @state World) :
  create_route lambda_name path needs_auth st =
  let ci := CreateIntegration (integration_params lambda_name) in
  let line := criando lambda_name path in
  match apigw_create_integration (integration_params lambda_name) (world st) with
  | (inl e, w1) =>
      (inr false, State w1 (calls st ++ [ci]) ((printed st ++ [line]) ++ ["  ✗ Erro: " +:+ str e]))
  | (inr integration, w1) =>
      match integration !! "IntegrationId" with
      | None =>
          (inr false, State w1 (calls st ++ [ci])
                        ((printed st ++ [line]) ++ ["  ✗ Erro: " +:+ str (KeyError "IntegrationId")]))
      | Some integration_id =>
          let params := route_params path integration_id needs_auth in
          match apigw_create_route params w1 with
          | (inl e, w2) =>
              (inr false, State w2 ((calls st ++ [ci]) ++ [CreateRoute params])
                            ((printed st ++ [line]) ++ ["  ✗ Erro: " +:+ str e]))
          | (inr route, w2) =>
              let perm := permission_params lambda_name (time_seconds w2) in
              let w3 := snd (lambda_add_permission perm w2) in
              let cs := ((calls st ++ [ci]) ++ [CreateRoute params]) ++ [AddPermission perm] in
              match route !! "RouteId" with
              | None =>
                  (inr false, State w3 cs
                     ((printed st ++ [line]) ++ ["  ✗ Erro: " +:+ str (KeyError "RouteId")]))
              | Some route_id =>
                  (inr true, State w3 cs
                     ((printed st ++ [line]) ++ ["  ✓ Criada: " +:+ route_id]))
              end
          end
      end
  end.
Proof.
  unfold create_route, try_except, mbind, M_bind, mret, M_ret, print, invoke,
    getitem, raise, now. simpl.
  destruct (apigw_create_integration _ _) as [[e|integration] w1]; simpl; [done|].
  destruct (integration !! "IntegrationId") as [integration_id|]; simpl; [|done].
  destruct (apigw_create_route _ _) as [[e|route] w2]; simpl; [done|].
  destruct (lambda_add_permission _ _) as [[e|r] w3]; simpl;
    destruct (route !! "RouteId"); done.
Qed.


Lemma calls_made_app {A : Type} (c : @M World A) (st : @state World) r w cs ls :
  c st = (r, State w (calls st ++ cs) ls) -> calls_made c st = cs.
Proof. intros Hc. unfold calls_made. rewrite Hc. simpl. by rewrite drop_app_length. Qed.

Lemma route_params_authorized (path integration_id : string) :
  route_params path integration_id true !! "AuthorizationType" = Some "JWT"
  /\ route_params path integration_id true !! "AuthorizerId" = Some AUTHORIZER_ID.
Proof. unfold route_params. split; by simplify_map_eq. Qed.

Lemma route_params_open (path integration_id : string) :
  route_params path integration_id false !! "AuthorizationType" = None
  /\ route_params path integration_id false !! "AuthorizerId" = None
  /\ dom (route_params path integration_id false)
     = ({["ApiId"; "RouteKey"; "Target"]} : gset string).
Proof.
  unfold route_params. split_and!; [by simplify_map_eq|by simplify_map_eq|].
  rewrite !dom_insert_L, dom_empty_L. set_solver.
Qed.

(** C1: the request [create_route] hands to [apigw.create_route] carries
    the authorization type [JWT] and the fixed authorizer when the route
    needs authorization, and has no authorization field, only [ApiId],
    [RouteKey] and [Target], when it does not. *)
Theorem route_request_authorization (lambda_name path : string) (needs_auth : bool)
    (st : @state World) (kw : gmap string string) :
  CreateRoute kw ∈ calls_made (create_route lambda_name path needs_auth) st ->
  if needs_auth
  then kw !! "AuthorizationType" = Some "JWT"
       /\ kw !! "AuthorizerId" = Some AUTHORIZER_ID
  else kw !! "AuthorizationType" = None /\ kw !! "AuthorizerId" = None
       /\ dom kw = ({["ApiId"; "RouteKey"; "Target"]} : gset string).
Proof.
  assert (Hparams : forall id, kw = route_params path id needs_auth ->
    if needs_auth
    then kw !! "AuthorizationType" = Some "JWT"
         /\ kw !! "AuthorizerId" = Some AUTHORIZER_ID
    else kw !! "AuthorizationType" = None /\ kw !! "AuthorizerId" = None
         /\ dom kw = ({["ApiId"; "RouteKey"; "Target"]} : gset string)).
  { intros id ->. destruct needs_auth;
      [apply route_params_authorized|apply route_params_open]. }
  unfold calls_made. rewrite create_route_cases. cbv zeta.
  destruct (apigw_create_integration _ _) as [[e|integration] w1]; simpl.
  { rewrite drop_app_length. by intros [=]%list_elem_of_singleton. }
  destruct (integration !! "IntegrationId") as [id|]; simpl.
  2: { rewrite drop_app_length. by intros [=]%list_elem_of_singleton. }
  destruct (apigw_create_route _ _) as [[e|route] w2]; simpl.
  { rewrite <- app_assoc, drop_app_length.
    intros [[=]|[= ->]%list_elem_of_singleton]%elem_of_cons. by eapply Hparams. }
  assert (Hin : forall cs : list call,
    cs = [CreateIntegration (integration_params lambda_name);
          CreateRoute (route_params path id needs_auth);
          AddPermission (permission_params lambda_name (time_seconds w2))] ->
    CreateRoute kw ∈ cs -> kw = route_params path id needs_auth).
  { intros cs -> Hin.
    apply elem_of_cons in Hin as [[=]|Hin].
    apply elem_of_cons in Hin as [[= ->]|Hin]; [done|].
    by apply list_elem_of_singleton in Hin as [=]. }
  destruct (route !! "RouteId"); simpl; rewrite <- !app_assoc, drop_app_length;
    intros Hkw; eapply Hparams, Hin; done.
Qed.

Lemma create_route_returns (lambda_name path : string) (needs_auth : bool) (st : @state World) :
  exists created st',
    create_route lambda_name path needs_auth st = (inr created, st').
Proof.
  rewrite create_route_cases. cbv zeta.
  destruct (apigw_create_integration _ _) as [[e|integration] w1]; [by eauto|].
  destruct (integration !! "IntegrationId") as [id|]; [|by eauto].
  destruct (apigw_create_route _ _) as [[e|route] w2]; [by eauto|].
  destruct (route !! "RouteId"); by eauto.
Qed.

Lemma process_cons (lambda_name path : string) (needs_auth : bool) routes
    (success failed : nat) (st : @state World) created st' :
  create_route lambda_name path needs_auth st = (inr created, st') ->
  process ((lambda_name, (path, needs_auth)) :: routes) success failed st
  = process routes (if created then S success else success)
      (if created then failed else S failed)
      (State (time_sleep_half (world st')) (calls st') (printed st')).
Proof.
  intros Hc. cbn [process]. unfold mbind, M_bind. rewrite Hc.
  unfold sleep. by destruct created.
Qed.

Lemma process_counts routes (success failed : nat) (st : @state World) :
  exists success' failed' st',
    process routes success failed st = (inr (success', failed'), st')
    /\ success' + failed' = success + failed + length routes.
Proof.
  revert success failed st.
  induction routes as [|[lambda_name [path needs_auth]] routes IH];
    intros success failed st.
  - exists success, failed, st. split; [done|]. simpl. lia.
  - destruct (create_route_returns lambda_name path needs_auth st)
      as (created & st' & Hc).
    rewrite (process_cons _ _ _ _ _ _ _ _ _ Hc).
    edestruct IH as (s' & f' & st'' & -> & Hsum).
    exists s', f', st''. split; [done|]. destruct created; simpl; lia.
Qed.

(** Every route of the table is taken up once, whatever the answers. *)
Lemma create_route_one_integration (lambda_name path : string) (needs_auth : bool)
    (st : @state World) :
  integrations (calls (snd (create_route lambda_name path needs_auth st)))
  = S (integrations (calls st)).
Proof.
  rewrite create_route_cases. cbv zeta.
  destruct (apigw_create_integration _ _) as [[e|integration] w1]; simpl.
  { rewrite integrations_app. simpl. lia. }
  destruct (integration !! "IntegrationId") as [id|]; simpl.
  2: { rewrite integrations_app. simpl. lia. }
  destruct (apigw_create_route _ _) as [[e|route] w2]; simpl.
  { rewrite !integrations_app. simpl. lia. }
  destruct (route !! "RouteId"); simpl; rewrite !integrations_app; simpl; lia.
Qed.

Lemma process_attempts_each_route_once routes (success failed : nat) (st : @state World) :
  integrations (calls (snd (process routes success failed st)))
  = integrations (calls st) + length routes.
Proof.
  revert success failed st.
  induction routes as [|[lambda_name [path needs_auth]] routes IH];
    intros success failed st; [simpl; lia|].
  destruct (create_route_returns lambda_name path needs_auth st)
    as (created & st' & Hc).
  rewrite (process_cons _ _ _ _ _ _ _ _ _ Hc), IH. simpl.
  pose proof (create_route_one_integration lambda_name path needs_auth st) as H1.
  rewrite Hc in H1. simpl in H1. lia.
Qed.
(** C5: whatever the provider answers, the script takes up every route
    of the table once and runs to its closing line, and the two counts
    it reports there add up to the number of entries of the route table,
    which is 27. *)
Theorem counts_add_up (st : @state World) :
  exists success failed st',
    main st = (inr (success, failed), st')
    /\ success + failed = length ROUTES
    /\ length ROUTES = 27
    /\ integrations (calls st') = integrations (calls st) + length ROUTES
    /\ last (printed st') = Some (closing_line success failed).
Proof.
  unfold main, main_over.
  unfold mbind at 1. unfold M_bind at 1. cbn [print].
  unfold mbind at 1. unfold M_bind at 1.
  match goal with
  | |- context [process ROUTES 0 0 ?st0] =>
      pose proof (process_attempts_each_route_once ROUTES 0 0 st0) as Hall;
      destruct (process_counts ROUTES 0 0 st0) as (s & f & st' & Hp & Hsum)
  end.
  rewrite Hp in Hall |- *. exists s, f. eexists. split_and!.
  - unfold mbind, M_bind, print, mret, M_ret. simpl. reflexivity.
  - done.
  - done.
  - exact Hall.
  - simpl. by rewrite last_snoc.
Qed.

(** C6: a failure in step 1 or 2 does not leave [create_route]: the
    function prints the error and returns [False]; the calls made are the
    integration creation alone or followed by the one route creation,
    with nothing repeated and nothing undone; and the loop counts one
    failure and goes on with the next route. *)
Theorem failure_is_caught (lambda_name path : string) (needs_auth : bool)
    (st : @state World) (e : exn) (w : World) (cs : list call) :
  failure_in_step_1_or_2 lambda_name path needs_auth (world st) = Some (e, w, cs) ->
  create_route lambda_name path needs_auth st
  = (inr false,
     State w (calls st ++ cs)
       (printed st ++ [criando lambda_name path; "  ✗ Erro: " +:+ str e]))
  /\ (cs = [CreateIntegration (integration_params lambda_name)]
      \/ exists integration_id,
           cs = [CreateIntegration (integration_params lambda_name);
                 CreateRoute (route_params path integration_id needs_auth)])
  /\ forall routes success failed,
       process ((lambda_name, (path, needs_auth)) :: routes) success failed st
       = process routes success (S failed)
           (after_route w st cs
              [criando lambda_name path; "  ✗ Erro: " +:+ str e]).
Proof.
  intros Hfail.
  assert (Hc : create_route lambda_name path needs_auth st
    = (inr false,
       State w (calls st ++ cs)
         (printed st ++ [criando lambda_name path; "  ✗ Erro: " +:+ str e]))
    /\ (cs = [CreateIntegration (integration_params lambda_name)]
        \/ exists integration_id,
             cs = [CreateIntegration (integration_params lambda_name);
                   CreateRoute (route_params path integration_id needs_auth)])).
  { rewrite create_route_cases. unfold failure_in_step_1_or_2 in Hfail.
    cbv zeta in *.
    destruct (apigw_create_integration _ _) as [[e1|integration] w1].
    { injection Hfail as <- <- <-. rewrite <- !app_assoc. eauto. }
    destruct (integration !! "IntegrationId") as [id|].
    2: { injection Hfail as <- <- <-. rewrite <- !app_assoc. eauto. }
    destruct (apigw_create_route _ _) as [[e2|route] w2]; [|done].
    injection Hfail as <- <- <-. rewrite <- !app_assoc. eauto. }
  destruct Hc as [Hc Hcs]. split_and!; [done|done|].
  intros routes success failed.
  by rewrite (process_cons _ _ _ _ _ _ _ _ _ Hc).
Qed.

(** C7: when steps 1 and 2 succeed, [create_route] returns [True]
    whatever [add_permission] answers, a raised exception included; no
    error line is printed and the loop counts the route as created. *)
Theorem permission_failure_is_ignored (lambda_name path : string)
    (needs_auth : bool) (st : @state World)
    (integration route : gmap string string) (integration_id route_id : string)
    (w1 w2 w3 : World) (granted : exn + gmap string string) :
  apigw_create_integration (integration_params lambda_name) (world st)
    = (inr integration, w1) ->
  integration !! "IntegrationId" = Some integration_id ->
  apigw_create_route (route_params path integration_id needs_auth) w1
    = (inr route, w2) ->
  route !! "RouteId" = Some route_id ->
  lambda_add_permission (permission_params lambda_name (time_seconds w2)) w2
    = (granted, w3) ->
  let cs :=
    [CreateIntegration (integration_params lambda_name);
     CreateRoute (route_params path integration_id needs_auth);
     AddPermission (permission_params lambda_name (time_seconds w2))] in
  let lines := [criando lambda_name path; "  ✓ Criada: " +:+ route_id] in
  create_route lambda_name path needs_auth st
  = (inr true, State w3 (calls st ++ cs) (printed st ++ lines))
  /\ forall routes success failed,
       process ((lambda_name, (path, needs_auth)) :: routes) success failed st
       = process routes (S success) failed (after_route w3 st cs lines).
Proof.
  intros Hci Hid Hcr Hrid Hap cs lines.
  assert (Hc : create_route lambda_name path needs_auth st
    = (inr true, State w3 (calls st ++ cs) (printed st ++ lines))).
  { rewrite create_route_cases. cbv zeta. rewrite Hci, Hid, Hcr, Hrid, Hap.
    simpl. by rewrite <- !app_assoc. }
  split; [done|]. intros routes success failed.
  by rewrite (process_cons _ _ _ _ _ _ _ _ _ Hc).
Qed.

End Script.

(** The names of the route table are distinct, so the list has the
    entries of the dictionary. *)
Lemma ROUTES_names_distinct : NoDup (map fst ROUTES).
Proof. apply (bool_decide_unpack _). vm_compute. reflexivity. Qed.

(** Three runs of the whole script against scripted providers. *)
Example all_granted : fst (main (H := scripted (fun _ => false)) fresh) = inr (27, 0).
Proof. vm_compute. reflexivity. Qed.

Example all_refused : fst (main (H := scripted (fun _ => true)) fresh) = inr (0, 27).
Proof. vm_compute. reflexivity. Qed.

Example every_fourth_refused :
  fst (main (H := scripted (fun i => Nat.eqb (i mod 4) 1)) fresh) = inr (13, 14).
Proof. vm_compute. reflexivity. Qed.

Lemma route_request_authorization_witness :
  route_params "/api/users" "int0" true !! "AuthorizationType" = Some "JWT"
  /\ route_params "/api/users" "int0" true !! "AuthorizerId" = Some AUTHORIZER_ID.
Proof.
  apply (@route_request_authorization nat (scripted (fun _ => false))
           "evo-uds-v3-production-list-users" "/api/users" true fresh).
  vm_compute. apply list_elem_of_further, list_elem_of_here.
Defined.

Lemma failure_is_caught_witness :
  fst (create_route (H := scripted (fun i => Nat.eqb i 1))
         "evo-uds-v3-production-list-users" "/api/users" true fresh)
  = inr false.
Proof.
  edestruct (@failure_is_caught nat (scripted (fun i => Nat.eqb i 1))
              "evo-uds-v3-production-list-users" "/api/users" true fresh)
    as [Hc _].
  - vm_compute. reflexivity.
  - rewrite Hc. reflexivity.
Defined.

Lemma permission_failure_is_ignored_witness :
  fst (create_route (H := scripted (fun i => Nat.eqb i 2))
         "evo-uds-v3-production-list-users" "/api/users" true fresh)
  = inr true.
Proof.
  edestruct (@permission_failure_is_ignored nat (scripted (fun i => Nat.eqb i 2))
              "evo-uds-v3-production-list-users" "/api/users" true fresh
              {["IntegrationId" := "int0"]} {["RouteId" := "route1"]}
              "int0" "route1" 1 2 3
              (inl (ClientError "ResourceConflictException")))
    as [Hc _]; [reflexivity..|].
  rewrite Hc. reflexivity.
Defined.

End RoutesFacts.

(** * Further properties of the template generator *)

Module GeneratorLaws.

Import Re GenerateCfLambdas GenerateCfLambdasSpec ReFacts GeneratorFacts.

Lemma search_skipped its (adv : bool) (pos : nat) (s : text) (f : found) :
  search its adv pos s = Some f ->
  forall i, pos + i < start f ->
    run its (allowed (adv && Nat.eqb i 0) (pos + i)) [] (pos + i) (drop i s) = None.
Proof.
  revert adv pos. induction s as [|c s IH]; intros adv pos; simpl.
  - destruct (run its (allowed adv pos) [] pos []) as [[[m e] s']|] eqn:Hrun; [|done].
    intros [= <-] i Hi. simpl in Hi. lia.
  - destruct (run its (allowed adv pos) [] pos (c :: s)) as [[[m e] s']|] eqn:Hrun.
    + intros [= <-] i Hi. simpl in Hi. lia.
    + intros Hs [|i] Hi.
      * rewrite Nat.add_0_r, andb_true_r. done.
      * rewrite andb_false_r. replace (pos + S i) with (S pos + i) by lia.
        simpl drop. apply (IH false (S pos) Hs i). lia.
Qed.

Lemma search_none its (adv : bool) (pos : nat) (s : text) :
  search its adv pos s = None ->
  forall i, i <= length s ->
    run its (allowed (adv && Nat.eqb i 0) (pos + i)) [] (pos + i) (drop i s) = None.
Proof.
  revert adv pos. induction s as [|c s IH]; intros adv pos; simpl.
  - destruct (run its (allowed adv pos) [] pos []) as [[[m e] s']|] eqn:Hrun; [done|].
    intros _ i Hi. replace i with 0 by lia. by rewrite Nat.add_0_r, andb_true_r.
  - destruct (run its (allowed adv pos) [] pos (c :: s)) as [[[m e] s']|] eqn:Hrun; [done|].
    intros Hs [|i] Hi.
    + by rewrite Nat.add_0_r, andb_true_r.
    + rewrite andb_false_r. replace (pos + S i) with (S pos + i) by lia.
      simpl drop. apply (IH false (S pos) Hs i). lia.
Qed.

Lemma greedy_ext p (k k' : nat -> text -> option outcome) (pos : nat) (s : text) :
  (forall pos' s', pos <= pos' -> k pos' s' = k' pos' s') ->
  greedy p k pos s = greedy p k' pos s.
Proof.
  revert pos. induction s as [|c s IH]; intros pos Hk; simpl.
  - by apply Hk.
  - rewrite (IH (S pos)) by (intros; apply Hk; lia). by rewrite Hk.
Qed.

Lemma lazy_ext p (k k' : nat -> text -> option outcome) (pos : nat) (s : text) :
  (forall pos' s', pos <= pos' -> k pos' s' = k' pos' s') ->
  lazy p k pos s = lazy p k' pos s.
Proof.
  revert pos. induction s as [|c s IH]; intros pos Hk; simpl.
  - by rewrite Hk.
  - rewrite (IH (S pos)) by (intros; apply Hk; lia). by rewrite Hk.
Qed.

(** A run asks [ok] only about positions at or behind its start. *)
Lemma run_ext its (ok ok' : nat -> bool) m (pos : nat) (s : text) :
  (forall e, pos <= e -> ok e = ok' e) ->
  run its ok m pos s = run its ok' m pos s.
Proof.
  revert m pos s. induction its as [|it its IH]; intros m pos s Hok.
  - simpl. by rewrite Hok.
  - destruct it; simpl.
    + destruct (strip_prefix l s); [|done]. apply IH. intros; apply Hok; lia.
    + destruct s as [|c s]; [done|]. destruct (p c); [|done].
      apply IH. intros; apply Hok; lia.
    + destruct s as [|c s]; [done|]. destruct (p c); [|done].
      apply greedy_ext. intros pos' s' Hp. apply IH. intros; apply Hok; lia.
    + apply lazy_ext. intros pos' s' Hp. apply IH. intros; apply Hok; lia.
    + by apply IH.
    + destruct (Nat.eqb pos 0); [done|]. by apply IH.
    + destruct s as [|c s]; [done|]. destruct (p c); [|done]. by apply IH.
Qed.

Lemma run_Lit_eq l k (ok : nat -> bool) m (pos : nat) (s : text) :
  run (Lit l :: k) ok m pos s
  = match strip_prefix l s with
    | Some s' => run k ok m (pos + length l) s'
    | None => None
    end.
Proof. reflexivity. Qed.

Lemma letter_cases (c : char) :
  is_letter c = true -> (65 <= c <= 90 \/ 97 <= c <= 122)%N.
Proof.
  unfold is_letter, is_az, is_AZ, in_range. intros Hc.
  apply orb_true_iff in Hc as [Hc|Hc];
    apply andb_true_iff in Hc as [?%N.leb_le ?%N.leb_le]; lia.
Qed.

Lemma is_AZ_range (c : char) : is_AZ c = true <-> (65 <= c <= 90)%N.
Proof.
  unfold is_AZ, in_range. rewrite andb_true_iff, !N.leb_le. done.
Qed.

Lemma is_az_range (c : char) : is_az c = true <-> (97 <= c <= 122)%N.
Proof.
  unfold is_az, in_range. rewrite andb_true_iff, !N.leb_le. done.
Qed.

Lemma upper_lower (c : char) : is_AZ c = true -> ascii_upper (ascii_lower c) = c.
Proof.
  intros Hc. unfold ascii_lower. rewrite Hc. apply is_AZ_range in Hc.
  unfold ascii_upper. replace (is_az (c + 32)) with true; [lia|].
  symmetry. apply is_az_range. lia.
Qed.

Lemma lower_small (c : char) :
  is_letter c = true -> is_AZ c = false ->
  ascii_lower c = c /\ is_az c = true /\ c <> 45%N.
Proof.
  intros Hl Hc. unfold ascii_lower. rewrite Hc.
  apply letter_cases in Hl as [Hr|Hr].
  - apply is_AZ_range in Hr. congruence.
  - split_and!; [done|by apply is_az_range|lia].
Qed.

Lemma lower_is_az (c : char) : is_letter c = true -> is_az (ascii_lower c) = true.
Proof.
  intros Hl. destruct (is_AZ c) eqn:Hc.
  - unfold ascii_lower. rewrite Hc. apply is_AZ_range in Hc. apply is_az_range. lia.
  - by destruct (lower_small c Hl Hc) as (-> & ? & _).
Qed.

Lemma unkebab_hyphenate_inner (w : text) :
  Forall (fun a => is_letter a = true) w ->
  unkebab_inner (map ascii_lower (hyphenate_inner w)) = w.
Proof.
  induction 1 as [|a w Ha _ IH]; [done|].
  cbn [hyphenate_inner]. destruct (is_AZ a) eqn:HAZ.
  - change (cp "-") with [45%N]. cbn [app map unkebab_inner].
    change (ascii_lower 45) with 45%N. cbn. rewrite upper_lower by done.
    by rewrite IH.
  - destruct (lower_small a Ha HAZ) as (Hlow & _ & Hne).
    cbn [app map unkebab_inner]. rewrite Hlow.
    replace (a =? 45)%N with false by (symmetry; by apply N.eqb_neq).
    by rewrite IH.
Qed.

Lemma hyphenate_ascii (n : text) :
  Forall (fun a => is_letter a = true) n -> forallb is_ascii (hyphenate n) = true.
Proof.
  intros Hn. apply forallb_forall. intros c Hc%list_elem_of_In.
  by destruct (letter_lower c (hyphenate_chars n c Hn Hc)).
Qed.

Lemma capitalized_letters (n : text) :
  capitalized n -> Forall (fun a => is_letter a = true) n.
Proof.
  intros (c & w & -> & Hc & Hw). apply Forall_cons_2; [|done].
  unfold is_letter. by rewrite Hc, orb_true_r.
Qed.

Lemma replace_from_sublist (old : text) (skip : nat) (s : text) :
  replace_from old [] skip s `sublist_of` s.
Proof.
  revert skip. induction s as [|a s IH]; intros skip; cbn [replace_from]; [done|].
  destruct skip as [|k].
  - destruct (startswith (a :: s) old); cbn [app].
    + by apply sublist_cons.
    + by apply sublist_skip.
  - by apply sublist_cons.
Qed.

(** X4: a handler in which [dist/] occurs nowhere is written as it is,
    and with [dist/] in front of it the normalization gives it back. *)
Theorem strip_dist_single_prefix (h : text) :
  occurrences (cp "dist/") h = 0 ->
  strip_dist h = h /\ strip_dist (cp "dist/" ++ h) = h.
Proof.
  intros Hocc. rewrite strip_dist_prefix. split; by apply strip_dist_absent.
Qed.

(** X5: the normalization only takes characters away: what it writes is
    the handler with some characters left out, in their order, so it is
    never longer and holds no character the handler does not hold. *)
Theorem strip_dist_only_deletes (h : text) :
  strip_dist h `sublist_of` h
  /\ length (strip_dist h) <= length h
  /\ (forall c, c ∈ strip_dist h -> c ∈ h).
Proof.
  assert (Hsub : strip_dist h `sublist_of` h) by apply replace_from_sublist.
  split_and!; [done|by apply sublist_length|].
  intros c Hc. by eapply elem_of_sublist.
Qed.

Section Tables.

Context `{UnicodeTables}.

(** The scan pattern takes at least its two blanks, so the ban on an
    empty match never bears on it. *)
Lemma pattern_run_allowed (adv : bool) (pos : nat) (s : text) :
  run pattern (allowed adv pos) [] pos s = run pattern (fun _ => true) [] pos s.
Proof.
  unfold pattern.
  rewrite !(run_Lit_eq (cp "  ")).
  destruct (strip_prefix (cp "  ") s); [|done].
  apply run_ext. intros e He. unfold allowed.
  change (length (cp "  ")) with 2 in He.
  replace (Nat.eqb e pos) with false by (symmetry; apply Nat.eqb_neq; lia).
  by destruct adv.
Qed.

Lemma finditer_from_covers (doc : text) (p fuel : nat) (adv : bool) (pos : nat) :
  2 * length (drop pos doc) + (if adv then 0 else 1) < fuel ->
  pos <= p ->
  is_Some (run pattern (fun _ => true) [] p (drop p doc)) ->
  exists f, f ∈ finditer_from pattern fuel adv pos (drop pos doc)
    /\ start f <= p < stop f.
Proof.
  revert adv pos. induction fuel as [|fuel IH]; intros adv pos Hfuel Hp Hrun; [lia|].
  assert (Hlen : p < length doc).
  { destruct (decide (p < length doc)); [done|].
    rewrite drop_ge in Hrun by lia. by destruct Hrun. }
  simpl. destruct (search pattern adv pos (drop pos doc)) as [f|] eqn:Hs.
  - pose proof (search_skipped _ _ _ _ _ Hs (p - pos)) as Hskip.
    apply search_inv in Hs as (pre & w & ok & Hdoc & Hst & Hsp & _ & Hadv).
    destruct (decide (p < start f)) as [Hlt|Hge].
    { rewrite drop_drop, pattern_run_allowed in Hskip.
      replace (pos + (p - pos)) with p in Hskip by lia.
      rewrite Hskip in Hrun by lia. by destruct Hrun. }
    destruct (decide (p < stop f)) as [Hin|Hout].
    { exists f. split; [left|lia]. }
    assert (Hrest : rest f = drop (stop f) doc).
    { rewrite Hsp, Hst, <- !drop_drop, Hdoc. by rewrite !drop_app_length. }
    destruct (IH (Nat.eqb (stop f) (start f)) (stop f)) as (f' & Hf' & Hspan).
    + rewrite <- Hrest. rewrite Hdoc, !length_app in Hfuel.
      destruct (Nat.eqb_spec (stop f) (start f)); destruct adv;
        first [lia | specialize (Hadv eq_refl); lia].
    + lia.
    + done.
    + exists f'. split; [right; by rewrite Hrest|done].
  - pose proof (search_none _ _ _ _ Hs (p - pos)) as Hnone.
    rewrite drop_drop, pattern_run_allowed in Hnone.
    replace (pos + (p - pos)) with p in Hnone by lia.
    rewrite Hnone in Hrun; [by destruct Hrun|]. rewrite length_drop. lia.
Qed.

(** X1: wherever in the document the scan pattern matches, an extracted
    match starts there or reaches over that place: a declaration is left
    out only when it lies inside an earlier match. *)
Theorem extraction_covers (doc : text) (p : nat) :
  is_Some (run pattern (fun _ => true) [] p (drop p doc)) ->
  exists f, f ∈ finditer pattern doc /\ start f <= p < stop f.
Proof.
  intros Hrun. unfold finditer.
  pose proof (finditer_from_covers doc p (2 * length doc + 2) false 0) as Hc.
  rewrite drop_0 in Hc. apply Hc; [lia|lia|done].
Qed.

Lemma func_name_kebab_ascii (n : text) :
  Forall (fun a => is_letter a = true) n ->
  func_name_kebab n = map ascii_lower (hyphenate n).
Proof.
  intros Hn. rewrite func_name_kebab_spec. unfold kebab_spec, lower.
  by rewrite hyphenate_ascii.
Qed.

Lemma unkebab_func_name_kebab (n : text) :
  capitalized n -> unkebab (func_name_kebab n) = n.
Proof.
  intros Hn. rewrite func_name_kebab_ascii by (by apply capitalized_letters).
  destruct Hn as (c & w & -> & Hc & Hw).
  cbn [hyphenate map unkebab]. rewrite upper_lower by done.
  by rewrite unkebab_hyphenate_inner.
Qed.

Lemma extracted_capitalized (f : func) : extracted f -> capitalized (name f).
Proof.
  intros [(c & c1 & w & -> & Hc & Hc1 & Hw) _]. exists c, (c1 :: w).
  split_and!; [done..|]. apply Forall_cons_2; [done|].
  apply Forall_forall. intros a Ha%list_elem_of_In. by eapply forallb_forall in Hw.
Qed.

(** X2: two extracted functions whose deployed names are equal have the
    same logical name: the name transformation merges no two names of
    the document. *)
Theorem deployed_names_distinct (doc : text) (f g : func) :
  f ∈ functions doc -> g ∈ functions doc ->
  func_name_kebab (name f) = func_name_kebab (name g) -> name f = name g.
Proof.
  intros Hf Hg Heq.
  pose proof (functions_extracted doc) as Hall.
  rewrite Forall_forall in Hall.
  rewrite <- (unkebab_func_name_kebab (name f)), <- (unkebab_func_name_kebab (name g));
    [by rewrite Heq|by apply extracted_capitalized, Hall..].
Qed.

(** X3: the deployed name of a capitalized name of letters consists of
    lower-case letters and hyphens and starts with a letter. *)
Theorem kebab_alphabet (n : text) :
  capitalized n ->
  Forall (fun c => is_az c = true \/ c = 45%N) (func_name_kebab n)
  /\ exists c rest, func_name_kebab n = c :: rest /\ is_az c = true.
Proof.
  intros Hn. pose proof (capitalized_letters n Hn) as Hl.
  rewrite func_name_kebab_ascii by done. split.
  - apply Forall_fmap, Forall_forall. intros c Hc. simpl.
    destruct (hyphenate_chars n c Hl Hc) as [Hc'| ->]; [left|by right].
    by apply lower_is_az.
  - destruct Hn as (c & w & -> & Hc & Hw). cbn [hyphenate map].
    eexists _, _. split; [done|]. apply lower_is_az.
    unfold is_letter. by rewrite Hc, orb_true_r.
Qed.

Lemma handler_char_plain (c : char) :
  is_handler_char c = true -> c <> 10%N /\ c <> 32%N /\ c <> 58%N /\ c <> 39%N.
Proof. intros Hc. split_and!; intros ->; done. Qed.

(** X6: every extracted handler is non-empty and made of word
    characters, [/], [-] and [.]; what the output carries of it holds no
    line break, no blank and no colon, so the handler line stays one
    line. *)
Theorem handler_line_intact (doc : text) (f : func) (c : char) :
  f ∈ functions doc ->
  handler f <> []
  /\ forallb is_handler_char (handler f) = true
  /\ (c ∈ strip_dist (handler f) ->
      is_handler_char c = true /\ c <> 10%N /\ c <> 32%N /\ c <> 58%N).
Proof.
  intros Hf. pose proof (functions_extracted doc) as Hall.
  rewrite Forall_forall in Hall. destruct (Hall f Hf) as (_ & Hne & Hh).
  split_and!; [done..|].
  intros Hc%strip_dist_subset%list_elem_of_In.
  eapply forallb_forall in Hh; [|done].
  destruct (handler_char_plain c Hh) as (? & ? & ? & _). done.
Qed.

(** X7: a run that finds its input prints the number of matches twice,
    writes an output that holds exactly that many function resources,
    and leaves every other file, the input among them, as it was. *)
Theorem run_leaves (files : gmap string text) (doc : text) :
  files !! sam_template = Some doc ->
  exists files' n,
    main files = inr (files', [found_line n; generated_line n])
    /\ n = length (matches doc)
    /\ files' !! production_template = Some (cf_template doc)
    /\ occurrences lambda_resource_type (cf_template doc) = n
    /\ files' !! sam_template = Some doc
    /\ (forall path, path <> production_template -> files' !! path = files !! path).
Proof.
  intros Hdoc. eexists _, _. split_and!.
  - by apply main_reads.
  - rewrite functions_finditer. unfold matches, findall2. by rewrite !length_map.
  - by rewrite lookup_insert_eq.
  - rewrite blocks_in_output, functions_finditer. unfold matches, findall2.
    by rewrite !length_map.
  - by rewrite lookup_insert_ne.
  - intros path Hp. by rewrite lookup_insert_ne.
Qed.

End Tables.

Lemma strip_dist_single_prefix_witness :
  strip_dist (cp "dist/" ++ cp "listUsers.handler") = cp "listUsers.handler".
Proof.
  apply (strip_dist_single_prefix (cp "listUsers.handler")).
  vm_compute. reflexivity.
Defined.

Lemma extraction_covers_witness :
  exists f, f ∈ finditer (pattern (H := no_tables)) enclosed_declaration
    /\ start f <= 102 < stop f.
Proof.
  apply (extraction_covers (H := no_tables) enclosed_declaration 102).
  vm_compute. eexists. reflexivity.
Defined.

Lemma deployed_names_distinct_witness : cp "FetchCosts" = cp "FetchCosts".
Proof.
  apply (deployed_names_distinct (H := no_tables) two_functions
           (Func (cp "FetchCosts") (cp "dist/fetchCosts.handler"))
           (Func (cp "FetchCosts") (cp "dist/fetchCosts.handler")));
    [vm_compute; apply list_elem_of_here..|reflexivity].
Defined.

Lemma kebab_alphabet_witness :
  exists c rest,
    func_name_kebab (H := no_tables) (cp "FetchCosts") = c :: rest
    /\ is_az c = true.
Proof.
  apply (kebab_alphabet (H := no_tables) (cp "FetchCosts")).
  exists 70%N, (cp "etchCosts"). split_and!; [reflexivity..|].
  vm_compute. repeat constructor.
Defined.

Lemma handler_line_intact_witness :
  forallb (is_handler_char (H := no_tables)) (cp "dist/fetchCosts.handler") = true.
Proof.
  destruct (handler_line_intact (H := no_tables) two_functions
              (Func (cp "FetchCosts") (cp "dist/fetchCosts.handler")) 102%N)
    as (_ & Hh & _).
  - vm_compute. apply list_elem_of_here.
  - exact Hh.
Defined.

Lemma run_leaves_witness :
  exists files' n,
    main (H := no_tables) {[sam_template := two_functions]}
    = inr (files', [found_line n; generated_line n])
    /\ n = length (matches (H := no_tables) two_functions).
Proof.
  destruct (run_leaves (H := no_tables) {[sam_template := two_functions]}
              two_functions) as (files' & n & Hm & Hn & _).
  - vm_compute. reflexivity.
  - exists files', n. split; [exact Hm|exact Hn].
Defined.

End GeneratorLaws.

(** * Further properties of the route provisioner *)

Module RoutesLaws.

Import CreateRoutes CreateRoutesSpec RoutesFacts.

Lemma route_creations_app (cs cs' : list call) :
  route_creations (cs ++ cs') = route_creations cs + route_creations cs'.
Proof. induction cs as [|c cs IH]; [done|]. destruct c; simpl; rewrite IH; lia. Qed.

Lemma permissions_app (cs cs' : list call) :
  permissions (cs ++ cs') = permissions cs + permissions cs'.
Proof. induction cs as [|c cs IH]; [done|]. destruct c; simpl; rewrite IH; lia. Qed.

Lemma integration_requests_app (cs cs' : list call) :
  integration_requests (cs ++ cs')
  = integration_requests cs ++ integration_requests cs'.
Proof. induction cs as [|c cs IH]; [done|]. destruct c; simpl; by rewrite IH. Qed.

Lemma ROUTES_open_under_auth :
  Forall (fun r : string * (string * bool) =>
            snd (snd r) = false ->
            String.prefix "/api/auth/" (fst (snd r)) = true) ROUTES.
Proof. unfold ROUTES. repeat constructor; vm_compute; done. Qed.

Lemma elem_of_concat {A : Type} (x : A) (ls : list (list A)) :
  x ∈ concat ls -> exists l, x ∈ l /\ l ∈ ls.
Proof.
  induction ls as [|l ls IH]; simpl; [by intros ?%elem_of_nil|].
  intros [Hx|Hx]%elem_of_app.
  - exists l. split; [done|left].
  - destruct (IH Hx) as (l' & ? & ?). exists l'. split; [done|by right].
Qed.

Section Script.

Context {World : Type} `{Provider World}.

(** What one route adds to the state. *)
Lemma create_route_shape (lambda_name path : string) (needs_auth : bool)
    (st : @state World) :
  exists created st' cs line,
    create_route lambda_name path needs_auth st = (inr created, st')
    /\ calls st' = calls st ++ cs
    /\ printed st' = printed st ++ [criando lambda_name path; line]
    /\ route_calls lambda_name path needs_auth cs
    /\ (created = true -> permissions cs = 1).
Proof.
  rewrite create_route_cases. cbv zeta. unfold route_calls.
  destruct (apigw_create_integration _ _) as [[e|integration] w1].
  { eexists _, _, _, _. split; [reflexivity|]. simpl.
    split_and!; [done|by rewrite <- app_assoc|by left|done]. }
  destruct (integration !! "IntegrationId") as [id|].
  2: { eexists _, _, _, _. split; [reflexivity|]. simpl.
       split_and!; [done|by rewrite <- app_assoc|by left|done]. }
  destruct (apigw_create_route _ _) as [[e|route] w2].
  { eexists _, _, _, _. split; [reflexivity|]. simpl.
    split_and!; [by rewrite <- app_assoc|by rewrite <- app_assoc
                |right; left; by eexists|done]. }
  destruct (route !! "RouteId"); eexists _, _, _, _;
    (split; [reflexivity|]); simpl;
    (split_and!; [by rewrite <- !app_assoc|by rewrite <- app_assoc
                 |right; right; by eexists _, _|done]).
Qed.

Lemma route_calls_tally (lambda_name path : string) (needs_auth : bool) cs :
  route_calls lambda_name path needs_auth cs ->
  integration_requests cs = [integration_params lambda_name]
  /\ permissions cs <= route_creations cs <= 1.
Proof.
  intros [->|[(id & ->)|(id & z & ->)]]; simpl; split; (done || lia).
Qed.

(** What the loop adds to the state: per route the calls of that route
    and two lines. *)
Lemma process_shape routes (success failed : nat) (st : @state World) :
  exists success' failed' st' css,
    process routes success failed st = (inr (success', failed'), st')
    /\ calls st' = calls st ++ concat css
    /\ Forall2 (fun (r : string * (string * bool)) cs => route_calls (fst r) (fst (snd r)) (snd (snd r)) cs)
         routes css
    /\ length (printed st') = length (printed st) + 2 * length routes
    /\ success' <= success + permissions (concat css).
Proof.
  revert success failed st.
  induction routes as [|[lambda_name [path needs_auth]] routes IH];
    intros success failed st.
  - exists success, failed, st, []. simpl.
    split_and!; [done|by rewrite app_nil_r|done|lia|lia].
  - destruct (create_route_shape lambda_name path needs_auth st)
      as (created & st1 & cs & line & Hc & Hcalls & Hprinted & Hshape & Hperm).
    rewrite (process_cons _ _ _ _ _ _ _ _ _ Hc).
    edestruct IH as (s' & f' & st' & css & -> & Hcalls' & Hall & Hlines & Hle).
    exists s', f', st', (cs :: css). simpl in *.
    split_and!.
    + done.
    + by rewrite Hcalls', Hcalls, <- app_assoc.
    + by constructor.
    + rewrite Hlines, Hprinted, length_app. simpl. lia.
    + rewrite permissions_app. destruct created; [rewrite Hperm by done|]; lia.
Qed.


Lemma main_over_eq routes (st : @state World) :
  main_over routes st
  = match process routes 0 0
            (State (world st) (calls st)
               (printed st ++ ["Criando " +:+ pretty (length routes)
                               +:+ " rotas principais..." +:+ newline]))
    with
    | (inr counts, st1) =>
        (inr counts,
         State (world st1) (calls st1)
           (printed st1 ++ [closing_line (fst counts) (snd counts)]))
    | (inl e, st1) => (inl e, st1)
    end.
Proof.
  unfold main_over, mbind, M_bind, mret, M_ret, print. cbn beta iota.
  destruct (process routes 0 0 _) as [[e|counts] st1]; reflexivity.
Qed.

Lemma main_shape (st : @state World) :
  exists success failed st' css,
    main st = (inr (success, failed), st')
    /\ calls st' = calls st ++ concat css
    /\ Forall2 (fun (r : string * (string * bool)) cs => route_calls (fst r) (fst (snd r)) (snd (snd r)) cs)
         ROUTES css
    /\ length (printed st') = length (printed st) + 2 * length ROUTES + 2
    /\ success <= permissions (concat css).
Proof.
  unfold main. rewrite main_over_eq.
  match goal with
  | |- context [process ROUTES 0 0 ?st0] =>
      destruct (process_shape ROUTES 0 0 st0)
        as (s & f & st' & css & Hp & Hcalls & Hall & Hlines & Hle)
  end.
  rewrite Hp. cbn [calls printed] in Hcalls, Hlines.
  exists s, f. eexists _, css. split; [reflexivity|]. cbn [calls printed].
  split_and!; [done|done| |lia].
  rewrite length_app, Hlines, length_app. cbn [length]. lia.
Qed.

Lemma main_calls_made (st : @state World) css st' r :
  main st = (r, st') -> calls st' = calls st ++ concat css ->
  calls_made main st = concat css.
Proof.
  intros Hm Hc. unfold calls_made. rewrite Hm. simpl.
  by rewrite Hc, drop_app_length.
Qed.

(** X8: [create_route] returns [True] exactly when the integration was
    created and answered with an identifier and the route was created
    and answered with an identifier; nothing else decides the result. *)
Theorem created_iff (lambda_name path : string) (needs_auth : bool)
    (st : @state World) :
  fst (create_route lambda_name path needs_auth st) = inr true <->
  exists integration w1 id route w2 route_id,
    apigw_create_integration (integration_params lambda_name) (world st)
      = (inr integration, w1)
    /\ integration !! "IntegrationId" = Some id
    /\ apigw_create_route (route_params path id needs_auth) w1 = (inr route, w2)
    /\ route !! "RouteId" = Some route_id.
Proof.
  rewrite create_route_cases. cbv zeta.
  destruct (apigw_create_integration _ _) as [[e|integration] w1] eqn:Hci.
  { split; [done|]. by intros (? & ? & ? & ? & ? & ? & [=] & _). }
  destruct (integration !! "IntegrationId") as [id|] eqn:Hid.
  2: { split; [done|]. intros (? & ? & ? & ? & ? & ? & [= <- <-] & Hid' & _).
       congruence. }
  destruct (apigw_create_route _ _) as [[e|route] w2] eqn:Hcr.
  { split; [done|].
    intros (? & ? & ? & ? & ? & ? & [= <- <-] & Hid' & Hcr' & _).
    rewrite Hid in Hid'. injection Hid' as <-. congruence. }
  destruct (route !! "RouteId") as [rid|] eqn:Hrid.
  - split; [|done]. intros _. by eexists _, _, _, _, _, _.
  - split; [done|].
    intros (? & ? & ? & ? & ? & ? & [= <- <-] & Hid' & Hcr' & Hrid').
    rewrite Hid in Hid'. injection Hid' as <-.
    rewrite Hcr in Hcr'. injection Hcr' as <- <-. congruence.
Qed.

(** X9: a route is only ever requested for an integration that was
    just created: its target is the identifier the provider answered,
    its key is [POST] and the path, its API the fixed one. *)
Theorem route_targets_integration (lambda_name path : string) (needs_auth : bool)
    (st : @state World) (kw : gmap string string) :
  CreateRoute kw ∈ calls_made (create_route lambda_name path needs_auth) st ->
  exists integration w1 id,
    apigw_create_integration (integration_params lambda_name) (world st)
      = (inr integration, w1)
    /\ integration !! "IntegrationId" = Some id
    /\ kw !! "Target" = Some ("integrations/" +:+ id)
    /\ kw !! "RouteKey" = Some ("POST " +:+ path)
    /\ kw !! "ApiId" = Some API_ID.
Proof.
  assert (Hkw : forall id, kw = route_params path id needs_auth ->
    kw !! "Target" = Some ("integrations/" +:+ id)
    /\ kw !! "RouteKey" = Some ("POST " +:+ path)
    /\ kw !! "ApiId" = Some API_ID).
  { intros id ->. unfold route_params. destruct needs_auth; by simplify_map_eq. }
  unfold calls_made. rewrite create_route_cases. cbv zeta.
  destruct (apigw_create_integration _ _) as [[e|integration] w1]; simpl.
  { rewrite drop_app_length. by intros [=]%list_elem_of_singleton. }
  destruct (integration !! "IntegrationId") as [id|] eqn:Hid; simpl.
  2: { rewrite drop_app_length. by intros [=]%list_elem_of_singleton. }
  assert (Hin : forall cs : list call,
    CreateRoute kw ∈ CreateIntegration (integration_params lambda_name)
                     :: CreateRoute (route_params path id needs_auth) :: cs ->
    (forall kw', CreateRoute kw' ∉ cs) ->
    kw = route_params path id needs_auth).
  { intros cs Hin Hcs.
    apply elem_of_cons in Hin as [[=]|Hin].
    apply elem_of_cons in Hin as [[= ->]|Hin]; [done|]. by apply Hcs in Hin. }
  destruct (apigw_create_route _ _) as [[e|route] w2]; simpl.
  { rewrite <- app_assoc, drop_app_length. intros Hmem.
    assert (Hkw' : kw = route_params path id needs_auth).
    { apply (Hin [] Hmem). by intros kw' ?%elem_of_nil. }
    destruct (Hkw _ Hkw') as (? & ? & ?).
    eexists _, _, id. split_and!; done. }
  assert (Hlast : forall kw' z,
    CreateRoute kw' ∉ [AddPermission (permission_params lambda_name z)]).
  { by intros kw' z [=]%list_elem_of_singleton. }
  destruct (route !! "RouteId"); simpl; rewrite <- !app_assoc, drop_app_length;
    intros Hmem;
    (assert (Hkw' : kw = route_params path id needs_auth)
       by (apply (Hin _ Hmem); intros kw'; apply Hlast));
    destruct (Hkw _ Hkw') as (? & ? & ?);
    eexists _, _, id; split_and!; done.
Qed.


(** X11: when the answer to the route creation carries no [RouteId],
    the route has been requested and the permission too, and yet
    [create_route] returns [False] and prints the missing key. *)
Theorem missing_route_id (lambda_name path : string) (needs_auth : bool)
    (st : @state World) (integration route : gmap string string)
    (id : string) (w1 w2 : World) :
  apigw_create_integration (integration_params lambda_name) (world st)
    = (inr integration, w1) ->
  integration !! "IntegrationId" = Some id ->
  apigw_create_route (route_params path id needs_auth) w1 = (inr route, w2) ->
  route !! "RouteId" = None ->
  fst (create_route lambda_name path needs_auth st) = inr false
  /\ calls_made (create_route lambda_name path needs_auth) st
     = [CreateIntegration (integration_params lambda_name);
        CreateRoute (route_params path id needs_auth);
        AddPermission (permission_params lambda_name (time_seconds w2))]
  /\ last (printed (snd (create_route lambda_name path needs_auth st)))
     = Some "  ✗ Erro: 'RouteId'".
Proof.
  intros Hci Hid Hcr Hrid. unfold calls_made.
  rewrite create_route_cases. cbv zeta. rewrite Hci, Hid, Hcr, Hrid. simpl.
  split_and!; [done| |by rewrite last_snoc].
  by rewrite <- !app_assoc, drop_app_length.
Qed.

(** X12: every route request of a whole run belongs to an entry of the
    table: it carries the path of the entry, the authorizer when the
    entry asks for it, and none only for a path under [/api/auth/]. *)
Theorem run_requests_from_table (st : @state World) (kw : gmap string string) :
  CreateRoute kw ∈ calls_made main st ->
  exists (lambda_name path : string) (needs_auth : bool),
    (lambda_name, (path, needs_auth)) ∈ ROUTES
    /\ kw !! "RouteKey" = Some ("POST " +:+ path)
    /\ (if needs_auth
        then kw !! "AuthorizationType" = Some "JWT"
             /\ kw !! "AuthorizerId" = Some AUTHORIZER_ID
        else kw !! "AuthorizationType" = None /\ kw !! "AuthorizerId" = None
             /\ String.prefix "/api/auth/" path = true).
Proof.
  destruct (main_shape st) as (s & f & st' & css & Hm & Hcalls & Hall & _ & _).
  rewrite (main_calls_made st css st' _ Hm Hcalls).
  intros (cs & Hkw & Hcs)%elem_of_concat.
  apply list_elem_of_lookup in Hcs as (i & Hi).
  destruct (Forall2_lookup_r _ _ _ _ _ Hall Hi)
    as ([lambda_name [path needs_auth]] & Hr & Hshape).
  simpl in Hshape.
  assert (Hrin : (lambda_name, (path, needs_auth)) ∈ ROUTES)
    by (by eapply list_elem_of_lookup_2).
  assert (Hid : exists id, kw = route_params path id needs_auth).
  { destruct Hshape as [->|[(id & ->)|(id & z & ->)]].
    - by apply list_elem_of_singleton in Hkw as [=].
    - apply elem_of_cons in Hkw as [[=]|Hkw].
      apply list_elem_of_singleton in Hkw as [= ->]. by exists id.
    - apply elem_of_cons in Hkw as [[=]|Hkw].
      apply elem_of_cons in Hkw as [[= ->]|Hkw]; [by exists id|].
      by apply list_elem_of_singleton in Hkw as [=]. }
  destruct Hid as (id & ->).
  exists lambda_name, path, needs_auth. split; [done|]. split.
  - unfold route_params. destruct needs_auth; by simplify_map_eq.
  - destruct needs_auth.
    + apply route_params_authorized.
    + destruct (route_params_open path id) as (? & ? & _). split_and!; [done..|].
      pose proof ROUTES_open_under_auth as Ht. rewrite Forall_forall in Ht.
      by apply (Ht _ Hrin).
Qed.

Lemma tally_concat (routes : list (string * (string * bool))) css :
  Forall2 (fun (r : string * (string * bool)) cs => route_calls (fst r) (fst (snd r)) (snd (snd r)) cs)
    routes css ->
  integration_requests (concat css)
  = map (fun r : string * (string * bool) => integration_params (fst r)) routes
  /\ permissions (concat css) <= route_creations (concat css) <= length routes.
Proof.
  induction 1 as [|r cs routes css Hshape _ IH]; [simpl; split; [done|lia]|].
  destruct r as [lambda_name [path needs_auth]]. simpl in Hshape.
  apply route_calls_tally in Hshape as [Hreq Hle].
  destruct IH as [IHreq IHle]. cbn [concat map length].
  rewrite integration_requests_app, permissions_app, route_creations_app.
  rewrite Hreq, IHreq. split; [done|lia].
Qed.

(** X13: in a whole run the reported number of created routes is at
    most the number of permission requests, which is at most the number
    of route requests, which is at most the number of entries; no run
    makes more than three calls per entry. *)
Theorem run_tally (st : @state World) :
  exists success failed st',
    main st = (inr (success, failed), st')
    /\ success <= permissions (calls_made main st)
    /\ permissions (calls_made main st) <= route_creations (calls_made main st)
    /\ route_creations (calls_made main st) <= length ROUTES
    /\ length (calls_made main st) <= 3 * length ROUTES.
Proof.
  destruct (main_shape st) as (s & f & st' & css & Hm & Hcalls & Hall & _ & Hle).
  rewrite (main_calls_made st css st' _ Hm Hcalls).
  destruct (tally_concat _ _ Hall) as [_ Ht].
  exists s, f, st'. split_and!; [done|lia|lia|lia|].
  clear -Hall. induction Hall as [|r cs routes css Hshape _ IH]; [simpl; lia|].
  cbn [concat length]. rewrite length_app.
  destruct Hshape as [->|[(id & ->)|(id & z & ->)]]; simpl; lia.
Qed.

(** X14: a whole run asks for one integration per entry of the table,
    for the function of that entry, in the order of the table. *)
Theorem run_integrations_in_table_order (st : @state World) :
  integration_requests (calls_made main st)
  = map (fun r : string * (string * bool) => integration_params (fst r)) ROUTES.
Proof.
  destruct (main_shape st) as (s & f & st' & css & Hm & Hcalls & Hall & _ & _).
  rewrite (main_calls_made st css st' _ Hm Hcalls).
  by destruct (tally_concat _ _ Hall) as [-> _].
Qed.

(** X15: a whole run prints two lines per entry of the table, between
    its opening and its closing line. *)
Theorem run_prints_two_lines_per_route (st : @state World) :
  length (printed (snd (main st))) = length (printed st) + 2 * length ROUTES + 2.
Proof.
  destruct (main_shape st) as (s & f & st' & css & Hm & _ & _ & Hlines & _).
  by rewrite Hm.
Qed.

End Script.

Lemma route_targets_integration_witness :
  route_params "/api/users" "int0" true !! "Target" = Some "integrations/int0".
Proof.
  destruct (@route_targets_integration nat (scripted (fun _ => false))
              "evo-uds-v3-production-list-users" "/api/users" true fresh
              (route_params "/api/users" "int0" true))
    as (integration & w1 & id & Hci & Hid & Htarget & _).
  - vm_compute. apply list_elem_of_further, list_elem_of_here.
  - vm_compute. reflexivity.
Defined.


Lemma missing_route_id_witness :
  fst (create_route (H := tacit) "evo-uds-v3-production-list-users"
         "/api/users" true fresh)
  = inr false.
Proof.
  apply (@missing_route_id nat tacit "evo-uds-v3-production-list-users"
           "/api/users" true fresh {["IntegrationId" := "int0"]} ∅ "int0" 1 2);
    reflexivity.
Defined.

Lemma run_requests_from_table_witness :
  exists (lambda_name path : string) (needs_auth : bool),
    (lambda_name, (path, needs_auth)) ∈ ROUTES
    /\ route_params "/api/auth/register" "int0" false !! "RouteKey"
       = Some ("POST " +:+ path).
Proof.
  destruct (@run_requests_from_table nat (scripted (fun _ => false)) fresh
              (route_params "/api/auth/register" "int0" false))
    as (lambda_name & path & needs_auth & Hin & Hkey & _).
  - apply (list_elem_of_lookup_2 _ 1). vm_compute. reflexivity.
  - exists lambda_name, path, needs_auth. split; [exact Hin|exact Hkey].
Defined.

End RoutesLaws.
